(** * gitin prompt engine: the stream-backed list and the key dispatch loop

    A shallow embedding of [prompt/async_list.go] (the [AsyncList] type, its
    population goroutine, and the [Prompt] main loop with its default key
    handler, key-binding table and snapshots) and of [itemText] of
    [prompt/renderer.go].  Go's [int] is a 64-bit two's complement integer: it is
    embedded as [Z] with the wrap-around of [+] and [-] written out.  A Go
    slice is embedded as the list of its elements; an index expression that
    Go would abort with a run-time panic yields [Panic].

    Two things are idealised.  The population goroutine runs concurrently
    with the callers of the list and without a lock; here one iteration of
    its loop is one atomic step, interleaved with the calls.  And a slice is
    a value here: after [CancelSearch] the Go slices [scope] and [items]
    share one backing array, so that a later [append] to one may overwrite
    an element of the other; lengths, Cursor and Start, which are all the
    theorems below speak of in such states, are not affected by that. *)

From stdpp Require Import base numbers option list gmap strings.
From Stdlib Require Import ZArith Lia ZifyBool Ascii.

Local Open Scope Z_scope.

(** ** Go integers *)

Module GoInt.

Definition int_min : Z := Eval cbv in - 2 ^ 63.
Definition int_max : Z := Eval cbv in 2 ^ 63 - 1.

Definition wrap (z : Z) : Z := (z + 2 ^ 63) mod 2 ^ 64 - 2 ^ 63.

Definition add (a b : Z) : Z := wrap (a + b).
Definition sub (a b : Z) : Z := wrap (a - b).

Definition in_range (z : Z) : Prop := int_min ≤ z ≤ int_max.

End GoInt.

Infix "⊞" := GoInt.add (at level 50, left associativity).
Infix "⊟" := GoInt.sub (at level 50, left associativity).

(** ** Results of code that may panic

    [NoFuel] is the result of a loop that is cut off by its bound before
    its guard fails; the loops below are given a bound they never reach. *)

Inductive outcome (X : Type) : Type :=
  | Ret (x : X)
  | Panic
  | NoFuel.
Arguments Ret {X} x.
Arguments Panic {X}.
Arguments NoFuel {X}.

#[export] Instance outcome_bind : MBind outcome := λ X Y k m,
  match m with
  | Ret x => k x
  | Panic => Panic
  | NoFuel => NoFuel
  end.

#[export] Instance outcome_ret : MRet outcome := λ X x, Ret x.

#[export] Instance outcome_fmap : FMap outcome := λ X Y f m,
  match m with
  | Ret x => Ret (f x)
  | Panic => Panic
  | NoFuel => NoFuel
  end.

(** [len s] is Go's [len(s)], [index s i] the index expression [s[i]]. *)
Definition len {X} (s : list X) : Z := Z.of_nat (length s).

Definition index {X} (s : list X) (i : Z) : outcome X :=
  if decide (0 ≤ i) then
    match s !! Z.to_nat i with
    | Some x => Ret x
    | None => Panic
    end
  else Panic.

(** Modelled from the spec: the constant [NotFound] is declared in
    [prompt/list.go], a file that is not part of the sources at hand.  The
    spec names it as the outcome that is no valid index; every valid index
    is [>= 0], and the value taken here is [-1]. *)
Definition NotFound : Z := -1.

(** The external fuzzy matcher ([github.com/sahilm/fuzzy]): given a pattern
    and the texts of a collection it returns the ranked matches. *)
Record Match := mkMatch {
  Str : string;
  Index_ : Z;
  MatchedIndexes : list Z;
  Score : Z
}.

Class Fuzzy := FindFrom : string → list string → list Match.

(** ** The list *)

Section AsyncList.

(** Items are opaque [interface{}] values: [None] is the nil interface,
    [Some a] a boxed value.  [Sprint] is [fmt.Sprint]: the matcher is run
    on [interfaceSource(l.items)], a type of [prompt/list.go] that presents
    each item by its text. *)
Context {A : Type} `{Countable A}.
Abbreviation value := (option A).
Context (Sprint : value → string).
Context {matcher : Fuzzy}.

Record AsyncList := mkAsyncList {
  items : list value;
  scope : list value;
  matches : gmap value (list Z);
  cursor : Z;
  size : Z;
  start : Z;
  find : string
}.

Definition set_items (x : list value) (l : AsyncList) : AsyncList :=
  mkAsyncList x (scope l) (matches l) (cursor l) (size l) (start l) (find l).
Definition set_scope (x : list value) (l : AsyncList) : AsyncList :=
  mkAsyncList (items l) x (matches l) (cursor l) (size l) (start l) (find l).
Definition set_matches (x : gmap value (list Z)) (l : AsyncList) : AsyncList :=
  mkAsyncList (items l) (scope l) x (cursor l) (size l) (start l) (find l).
Definition set_cursor (x : Z) (l : AsyncList) : AsyncList :=
  mkAsyncList (items l) (scope l) (matches l) x (size l) (start l) (find l).
Definition set_start (x : Z) (l : AsyncList) : AsyncList :=
  mkAsyncList (items l) (scope l) (matches l) (cursor l) (size l) x (find l).
Definition set_find (x : string) (l : AsyncList) : AsyncList :=
  mkAsyncList (items l) (scope l) (matches l) (cursor l) (size l) (start l) x.

(** [NewAsyncList]: the channel argument is either nil or a live channel;
    the goroutine it starts is [feed] below. *)
Inductive chan := nil_chan | live_chan.

Definition NewAsyncList (ch : chan) (sz : Z) : string + AsyncList :=
  if sz <? 1 then inl "list size must be greater than 0"%string
  else match ch with
       | nil_chan => inl "items is not a chan"%string
       | live_chan => inr (mkAsyncList [] [] ∅ 0 sz 0 "")
       end.

Definition addItem (item : value) (l : AsyncList) : AsyncList :=
  match item with
  | Some _ => set_items (items l ++ [item]) l
  | None => l
  end.

Definition Prev (l : AsyncList) : AsyncList :=
  let l := if 0 <? cursor l then set_cursor (cursor l ⊟ 1) l else l in
  if cursor l <? start l then set_start (cursor l) l else l.

Definition CancelSearch (l : AsyncList) : AsyncList :=
  let l := set_cursor 0 l in
  let l := set_start 0 l in
  set_scope (items l) l.

(** The body of the [for _, r := range results] loop of [search]. *)
Fixpoint search_loop (results : list Match) (l : AsyncList) : outcome AsyncList :=
  match results with
  | [] => Ret l
  | r :: rest =>
      item ← index (items l) (Index_ r) ;
      let l := set_scope (scope l ++ [item]) l in
      let l := set_matches (<[item := MatchedIndexes r]> (matches l)) l in
      search_loop rest l
  end.

Definition search (term : string) (l : AsyncList) : outcome AsyncList :=
  if (String.length term =? 0)%nat then Ret (set_scope (items l) l)
  else
    let l := set_matches ∅ l in
    let results := FindFrom term (Sprint <$> items l) in
    let l := set_scope [] l in
    search_loop results l.

(** [strings.Trim(term, " ")]. *)
Fixpoint trim_left (s : string) : string :=
  match s with
  | String " "%char s' => trim_left s'
  | _ => s
  end.

Definition trim (s : string) : string :=
  String.rev (trim_left (String.rev (trim_left s))).

Definition Search (term : string) (l : AsyncList) : outcome AsyncList :=
  let term := trim term in
  let l := set_cursor 0 l in
  let l := set_start 0 l in
  let l := set_find term l in
  search term l.

Definition Start (l : AsyncList) : Z := start l.

Definition SetStart (i : Z) (l : AsyncList) : AsyncList :=
  let i := if i <? 0 then 0 else i in
  if cursor l <? i then set_start (cursor l) l else set_start i l.

Definition SetCursor (i : Z) (l : AsyncList) : AsyncList :=
  let max := len (scope l) ⊟ 1 in
  let i := if max <=? i then max else i in
  let i := if i <? 0 then 0 else i in
  let l := set_cursor i l in
  if cursor l <? start l then set_start (cursor l) l
  else if start l ⊞ size l <=? cursor l
       then set_start (cursor l ⊟ size l ⊞ 1) l
       else l.

Definition Next (l : AsyncList) : AsyncList :=
  let max := len (scope l) ⊟ 1 in
  let l := if cursor l <? max then set_cursor (cursor l ⊞ 1) l else l in
  if start l ⊞ size l <=? cursor l
  then set_start (cursor l ⊟ size l ⊞ 1) l
  else l.

Definition PageUp (l : AsyncList) : AsyncList :=
  let start' := start l ⊟ size l in
  let l := if start' <? 0 then set_start 0 l else set_start start' l in
  let cursor' := start l in
  if cursor' <? cursor l then set_cursor cursor' l else l.

Definition PageDown (l : AsyncList) : AsyncList :=
  let start' := start l ⊞ size l in
  let max := len (scope l) ⊟ size l in
  let l :=
    if len (scope l) <? size l then set_start 0 l
    else if max <? start' then set_start max l
    else set_start start' l in
  let cursor' := start l in
  if cursor' =? cursor l then set_cursor (len (scope l) ⊟ 1) l
  else if cursor l <? cursor' then set_cursor cursor' l
  else l.

Definition CanPageDown (l : AsyncList) : bool :=
  let max := len (scope l) in
  start l ⊞ size l <? max.

Definition CanPageUp (l : AsyncList) : bool := 0 <? start l.

(** The [for i, item := range l.items] loop of [Index]. *)
Fixpoint Index_loop (i : Z) (its : list value) (selected : value) : Z :=
  match its with
  | [] => NotFound
  | item :: rest =>
      if decide (item = selected) then i
      else Index_loop (i + 1) rest selected
  end.

Definition Index (l : AsyncList) : outcome Z :=
  if len (scope l) <=? 0 then Ret 0
  else
    selected ← index (scope l) (cursor l) ;
    Ret (Index_loop 0 (items l) selected).

(** The [for i, j := l.start, 0; i < end; i, j = i+1, j+1] loop of
    [Items]; [fuel] bounds the number of iterations. *)
Fixpoint Items_loop (fuel : nat) (l : AsyncList) (end_ i j active : Z)
    (result : list value) : outcome (list value * Z) :=
  if i <? end_ then
    match fuel with
    | O => NoFuel
    | S fuel =>
        let active := if cursor l =? i then j else active in
        v ← index (scope l) i ;
        Items_loop fuel l end_ (i ⊞ 1) (j ⊞ 1) active (result ++ [v])
    end
  else Ret (result, active).

Definition Items (l : AsyncList) : outcome (list value * Z) :=
  let max := len (scope l) in
  let end_ := start l ⊞ size l in
  let end_ := if max <? end_ then max else end_ in
  Items_loop (S (length (scope l))) l end_ (start l) 0 NotFound [].

Definition Size (l : AsyncList) : Z := size l.
Definition Cursor (l : AsyncList) : Z := cursor l.
Definition Matches (l : AsyncList) : gmap value (list Z) := matches l.

(** ** The population goroutine

    [flush] and [done] are the goroutine's locals; [updates] counts the
    values it has sent on [list.update] (a receiver is assumed to be
    ready).  One [feed_step] is one iteration of [for val := range items];
    [feed_close] is the send after the channel is closed.  The [size] the
    loop compares with is the argument of [NewAsyncList], which is also
    the list's [size] field. *)
Record feeder := mkFeeder { flush : Z; done : bool }.

Record population := mkPopulation {
  lst : AsyncList;
  fd : feeder;
  updates : nat
}.

Definition spawn (l : AsyncList) : population :=
  mkPopulation l (mkFeeder 0 false) 0.

Definition feed_step (s : population) (val : value) : population :=
  let l := addItem val (lst s) in
  let flush := flush (fd s) in
  let done := done (fd s) in
  let '(updates, flush) :=
    if 200 <? flush then (S (updates s), 0) else (updates s, flush) in
  let '(l, done) :=
    if (flush <? size l) && negb done then
      let l := set_scope (scope l ++ [val]) l in
      (l, if flush =? size l then true else done)
    else (l, done) in
  let flush := flush ⊞ 1 in
  mkPopulation l (mkFeeder flush done) updates.

Definition feed_close (s : population) : population :=
  mkPopulation (lst s) (fd s) (S (updates s)).

Definition feed (vals : list value) (s : population) : population :=
  fold_left feed_step vals s.

(** The whole life of the goroutine on a stream that delivers [vals] and
    is then closed. *)
Definition drain (vals : list value) (s : population) : population :=
  feed_close (feed vals s).

(** After [k >= 1] iterations the goroutine's counter is
    [(k-1) mod 201 + 1] and it has sent [(k-1) / 201] notifications. *)
Definition fed (k : Z) (s : population) : Prop :=
  if decide (k = 0) then flush (fd s) = 0 ∧ updates s = 0%nat
  else flush (fd s) = (k - 1) `mod` 201 + 1 ∧
       Z.of_nat (updates s) = (k - 1) `div` 201.

(** ** Calls of the public operations *)
Inductive call :=
  | CPrev | CNext | CPageUp | CPageDown
  | CSetCursor (i : Z) | CSetStart (i : Z)
  | CSearch (term : string) | CCancelSearch.

Definition exec (c : call) (l : AsyncList) : outcome AsyncList :=
  match c with
  | CPrev => Ret (Prev l)
  | CNext => Ret (Next l)
  | CPageUp => Ret (PageUp l)
  | CPageDown => Ret (PageDown l)
  | CSetCursor i => Ret (SetCursor i l)
  | CSetStart i => Ret (SetStart i l)
  | CSearch term => Search term l
  | CCancelSearch => Ret (CancelSearch l)
  end.

Fixpoint run (cs : list call) (l : AsyncList) : outcome AsyncList :=
  match cs with
  | [] => Ret l
  | c :: cs => l ← exec c l; run cs l
  end.

(** ** The invariants of the data model

    [Inv l] is [0 <= Start <= Cursor <= len(Scope)-1] (both 0 when Scope
    is empty) together with [Cursor - Start < VisibleSize]. *)
Definition Inv (l : AsyncList) : Prop :=
  0 ≤ start l ≤ cursor l ∧
  (scope l = [] → cursor l = 0 ∧ start l = 0) ∧
  (scope l ≠ [] → cursor l ≤ len (scope l) - 1) ∧
  cursor l - start l < size l.

(** No [int] overflows as long as a window laid at the very end of Scope
    is still representable. *)
Definition fits (l : AsyncList) : Prop :=
  len (scope l) + size l ≤ GoInt.int_max.

(** The calls below which the invariants are kept: [PageDown] on a
    non-empty Scope, and [SetStart] to a row from which the cursor is
    still visible. *)
Definition admissible (c : call) (l : AsyncList) : Prop :=
  match c with
  | CPageDown => scope l ≠ [] ∧ fits l
  | CSetStart i => cursor l - i < size l
  | CNext | CSetCursor _ => fits l
  | CPrev | CPageUp | CSearch _ | CCancelSearch => True
  end.

(** [Inv] together with what the types of the fields give: VisibleSize
    and Cursor are representable [int]s, and VisibleSize is positive. *)
Definition Sound (l : AsyncList) : Prop :=
  Inv l ∧ 1 ≤ size l ≤ GoInt.int_max ∧ cursor l ≤ GoInt.int_max.

Definition with_lst (l : AsyncList) (s : population) : population :=
  mkPopulation l (fd s) (updates s).

(** States of a list and its population goroutine reached from
    [NewAsyncList] by iterations of the goroutine interleaved with
    admissible calls. *)
Inductive reachable : population → Prop :=
  | reach_new sz l :
      sz ≤ GoInt.int_max →
      NewAsyncList live_chan sz = inr l →
      reachable (spawn l)
  | reach_feed s val :
      reachable s → reachable (feed_step s val)
  | reach_call s c l' :
      reachable s →
      admissible c (lst s) →
      exec c (lst s) = Ret l' →
      reachable (with_lst l' s).

End AsyncList.

Arguments AsyncList A {_ _}.
Arguments population A {_ _}.

(** ** The prompt engine *)

Abbreviation rune := Z (only parsing).
Abbreviation error := string (only parsing).

(** The key codes of the terminal driver (package [term], not part of the
    sources at hand) are taken as parameters. *)
Class Term := {
  KeyCtrlC : rune;
  KeyCtrlD : rune;
  KeyCtrlU : rune;
  Enter : rune;
  NewLine : rune;
  ArrowUp : rune;
  ArrowDown : rune;
  ArrowLeft : rune;
  ArrowRight : rune;
  Backspace : rune;
  Backspace2 : rune
}.

(** Go's [string(key)] and [utf8.DecodeLastRuneInString]. *)
Class Utf8 := {
  string_of_rune : rune → string;
  DecodeLastRuneInString : string → rune * Z
}.

(** [Prompt] holds a [*List]; the type [List] is declared in
    [prompt/list.go], which is not part of the sources at hand.  The engine
    is embedded over the methods it calls on it. *)
Class ListOps (V L : Type) := {
  list_Items : L → outcome (list V * Z);
  list_Prev : L → L;
  list_Next : L → L;
  list_PageUp : L → L;
  list_PageDown : L → L;
  list_Search : string → L → outcome L
}.

#[export] Instance AsyncList_ops {A} `{Countable A}
    (Sprint : option A → string) {matcher : Fuzzy} :
    ListOps (option A) (AsyncList A) := {
  list_Items := Items;
  list_Prev := Prev;
  list_Next := Next;
  list_PageUp := PageUp;
  list_PageDown := PageDown;
  list_Search := Search Sprint
}.

Section Prompt.

Context {V L : Type} {ops : ListOps V L}.
Context {term : Term} {utf8 : Utf8}.

Record Prompt := mkPrompt {
  plist : L;
  vim : bool;
  inputMode : bool;
  helpMode : bool;
  itemsLabel : string;
  input : string;
  hold : bool
}.

Definition set_plist (x : L) (p : Prompt) : Prompt :=
  mkPrompt x (vim p) (inputMode p) (helpMode p) (itemsLabel p) (input p) (hold p).
Definition set_inputMode (x : bool) (p : Prompt) : Prompt :=
  mkPrompt (plist p) (vim p) x (helpMode p) (itemsLabel p) (input p) (hold p).
Definition set_helpMode (x : bool) (p : Prompt) : Prompt :=
  mkPrompt (plist p) (vim p) (inputMode p) x (itemsLabel p) (input p) (hold p).
Definition set_input (x : string) (p : Prompt) : Prompt :=
  mkPrompt (plist p) (vim p) (inputMode p) (helpMode p) (itemsLabel p) x (hold p).
Definition set_hold (x : bool) (p : Prompt) : Prompt :=
  mkPrompt (plist p) (vim p) (inputMode p) (helpMode p) (itemsLabel p) (input p) x.

(** A handler ([func(interface{}) error]) is a closure that may change
    the prompt and may fail.  The handlers live outside the [Prompt]
    record, in [Hooks]. *)
Definition handler := V → Prompt → Prompt * option error.

Record KeyBinding := mkKeyBinding {
  Key : rune;
  Display : string;
  Handler : handler;
  Desc : string
}.

Record Hooks := mkHooks {
  selectionHandler : handler;
  keyBindings : list KeyBinding
}.

(** What the engine does to the outside, in order. *)
Inductive frame :=
  | HelpFrame
  | ListFrame (label : string) (mode : bool) (query : string)
              (window : list V) (active : Z).

Inductive effect :=
  | Rendered (f : frame)
  | SelectionCalled (item : V)
  | BindingCalled (key : rune) (item : V)
  | ScreenCleared.

Record World := mkWorld { prompt : Prompt; trace : list effect }.

Definition emit (e : effect) (w : World) : World :=
  mkWorld (prompt w) (trace w ++ [e]).
Definition update (f : Prompt → Prompt) (w : World) : World :=
  mkWorld (f (prompt w)) (trace w).

Definition invoke (e : effect) (h : handler) (item : V) (w : World)
    : option error * World :=
  let '(p, err) := h item (prompt w) in
  (err, mkWorld p (trace w ++ [e])).

(** [render]: the cells themselves are the renderer's business; the frame
    records what is drawn. *)
Definition render (w : World) : outcome World :=
  let p := prompt w in
  if helpMode p then Ret (emit (Rendered HelpFrame) w)
  else
    '(items, idx) ← list_Items (plist p);
    _ ← (if idx =? NotFound then Ret None else Some <$> index items idx);
    Ret (emit (Rendered (ListFrame (itemsLabel p) (inputMode p) (input p)
                           items idx)) w).

(** [p.input[0 : len(p.input)-size]]. *)
Definition drop_last (s : string) (n : Z) : outcome string :=
  let hi := Z.of_nat (String.length s) ⊟ n in
  if decide (0 ≤ hi ≤ Z.of_nat (String.length s))
  then Ret (String.substring 0 (Z.to_nat hi) s)
  else Panic.

(** The [for _, kb := range p.keyBindings] loop of [onKey]. *)
Fixpoint lookup_binding (kbs : list KeyBinding) (key : rune)
    (items : list V) (idx : Z) (w : World) : outcome (option error * World) :=
  match kbs with
  | [] => Ret (None, w)
  | kb :: kbs =>
      if Key kb =? key then
        item ← index items idx;
        Ret (invoke (BindingCalled key item) (Handler kb) item w)
      else lookup_binding kbs key items idx w
  end.

Definition onKey (hooks : Hooks) (key : rune) (w : World)
    : outcome (option error * World) :=
  let p := prompt w in
  if helpMode p then Ret (None, update (set_helpMode false) w)
  else if key =? ArrowUp then
    Ret (None, update (set_plist (list_Prev (plist p))) w)
  else if key =? ArrowDown then
    Ret (None, update (set_plist (list_Next (plist p))) w)
  else if key =? ArrowLeft then
    Ret (None, update (set_plist (list_PageDown (plist p))) w)
  else if key =? ArrowRight then
    Ret (None, update (set_plist (list_PageUp (plist p))) w)
  else if key =? 47 (* '/' *) then
    Ret (None, update (set_inputMode (negb (inputMode p))) w)
  else if inputMode p then
    input' ←
      (if (key =? Backspace) || (key =? Backspace2) then
         if (0 <? String.length (input p))%nat then
           let '(_, size) := DecodeLastRuneInString (input p) in
           drop_last (input p) size
         else Ret (input p)
       else if key =? KeyCtrlU then Ret ""%string
       else Ret (input p +:+ string_of_rune key));
    list' ← list_Search input' (plist p);
    Ret (None, update (λ p, set_plist list' (set_input input' p)) w)
  else if key =? 63 (* '?' *) then
    Ret (None, update (set_helpMode (negb (helpMode p))) w)
  else if vim p && (key =? 107 (* 'k' *)) then
    Ret (None, update (set_plist (list_Prev (plist p))) w)
  else if vim p && (key =? 106 (* 'j' *)) then
    Ret (None, update (set_plist (list_Next (plist p))) w)
  else if vim p && (key =? 104 (* 'h' *)) then
    Ret (None, update (set_plist (list_PageDown (plist p))) w)
  else if vim p && (key =? 108 (* 'l' *)) then
    Ret (None, update (set_plist (list_PageUp (plist p))) w)
  else
    '(items, idx) ← list_Items (plist p);
    if idx =? NotFound then Ret (None, w)
    else lookup_binding (keyBindings hooks) key items idx w.

(** [AddKeyBinding] appends to the table and never fails. *)
Definition AddKeyBinding (b : KeyBinding) (hooks : Hooks) : Hooks * option error :=
  (mkHooks (selectionHandler hooks) (keyBindings hooks ++ [b]), None).

(** [Selection]: the selected item, or the error ["item not found"]. *)
Definition Selection (p : Prompt) : outcome (error + V) :=
  '(items, idx) ← list_Items (plist p);
  if idx =? NotFound then Ret (inl "item not found"%string)
  else item ← index items idx; Ret (inr item).

(** Hooks none of whose handlers fails. *)
Definition quiet (hooks : Hooks) : Prop :=
  (∀ item p, (selectionHandler hooks item p).2 = None) ∧
  Forall (λ kb, ∀ item p, (Handler kb item p).2 = None) (keyBindings hooks).

(** The keys [onKey] maps to list navigation, and the keys the main loop
    handles itself before [onKey] is asked. *)
Definition is_navigation (p : Prompt) (key : rune) : bool :=
  (key =? ArrowUp) || (key =? ArrowDown) ||
  (key =? ArrowLeft) || (key =? ArrowRight) ||
  vim p && ((key =? 107) || (key =? 106) || (key =? 104) || (key =? 108)).

Definition is_interrupt (key : rune) : bool :=
  (key =? KeyCtrlC) || (key =? KeyCtrlD).

Definition is_confirm (key : rune) : bool :=
  (key =? Enter) || (key =? NewLine).

(** ** The main loop

    The loop's [select] takes, one at a time, a stop signal, a key event
    or a window resize; the model is driven by the list of what it took. *)
Inductive loop_event :=
  | EvQuit
  | EvKey (ch : rune) (err : option error)
  | EvWinch.

(** One pass through the [select]: the loop goes on, is left by
    [break mainloop] with the value of [err], or returns at once. *)
Inductive pass :=
  | Continue (w : World)
  | Break (err : option error) (w : World)
  | Return (err : error) (w : World).

Definition finish_pass (w : World) : outcome pass :=
  w ← render w;
  Ret (Continue (update (set_hold false) w)).

Definition loop_pass (hooks : Hooks) (ev : loop_event) (w : World)
    : outcome pass :=
  match ev with
  | EvQuit => Ret (Break None w)
  | EvKey r ev_err =>
      let w := update (set_hold true) w in
      match ev_err with
      | Some err => Ret (Return err w)
      | None =>
          if (r =? KeyCtrlC) || (r =? KeyCtrlD) then Ret (Break None w)
          else if (r =? Enter) || (r =? NewLine) then
            '(items, idx) ← list_Items (plist (prompt w));
            if idx =? NotFound then finish_pass w
            else
              item ← index items idx;
              let '(err, w) :=
                invoke (SelectionCalled item) (selectionHandler hooks) item w in
              match err with
              | Some _ => Ret (Break err w)
              | None => finish_pass w
              end
          else
            '(err, w) ← onKey hooks r w;
            match err with
            | Some _ => Ret (Break err w)
            | None => finish_pass w
            end
      end
  | EvWinch => Continue <$> render w
  end.

(** How a run of the loop over a finite list of events ends: it has
    returned [err] to its caller, or it is waiting in [select]. *)
Inductive loop_result :=
  | Returned (err : option error) (w : World)
  | Waiting (w : World).

Fixpoint loop_from (hooks : Hooks) (evs : list loop_event) (w : World)
    : outcome loop_result :=
  match evs with
  | [] => Ret (Waiting w)
  | ev :: evs =>
      r ← loop_pass hooks ev w;
      match r with
      | Continue w => loop_from hooks evs w
      | Break err w => Ret (Returned err (emit ScreenCleared w))
      | Return err w => Ret (Returned (Some err) w)
      end
  end.

Definition mainloop (hooks : Hooks) (evs : list loop_event) (w : World)
    : outcome loop_result :=
  w ← render w;
  loop_from hooks evs w.

End Prompt.

Arguments Prompt : clear implicits.
Arguments handler : clear implicits.
Arguments KeyBinding : clear implicits.
Arguments Hooks : clear implicits.
Arguments frame : clear implicits.
Arguments effect : clear implicits.
Arguments World : clear implicits.
Arguments pass : clear implicits.
Arguments loop_result : clear implicits.

(** ** Snapshots of the prompt

    [State] and [SetState] read and write fields of the list itself, so
    they are embedded over [AsyncList].  [SetState] puts the snapshot's
    list in place and replays Cursor and Start on it. *)
Module Snapshot.
Section Snapshot.

Context {A : Type} `{Countable A}.

Record State := mkState {
  List : AsyncList A;
  SearchMode : bool;
  SearchStr : string;
  SearchLabel : string;
  Cursor : Z;
  Scroll : Z;
  ListSize : Z
}.

Definition with_List (l : AsyncList A) (state : State) : State :=
  mkState l (SearchMode state) (SearchStr state) (SearchLabel state)
    (Cursor state) (Scroll state) (ListSize state).

(** The method [State()]. *)
Definition get (p : Prompt (AsyncList A)) : State :=
  let scroll := Start (plist p) in
  mkState (plist p) (inputMode p) (input p) (itemsLabel p)
    (cursor (plist p)) scroll (size (plist p)).

Definition SetState (state : State) (p : Prompt (AsyncList A))
    : Prompt (AsyncList A) :=
  let p := mkPrompt (List state) (vim p) (SearchMode state) (helpMode p)
             (SearchLabel state) (SearchStr state) (hold p) in
  let p := set_plist (SetCursor (Cursor state) (plist p)) p in
  set_plist (SetStart (Scroll state) (plist p)) p.

End Snapshot.
End Snapshot.

(** ** The renderer

    [renderer.go].  The cells come from [term.Cprint], the attributes from
    [github.com/fatih/color]; both packages are outside the sources, so
    [Cprint] is a parameter and the attributes are an enumeration.
    [runes] is the sequence of runes of a string, as [for _, r := range
    text] yields them. *)
Inductive Attribute :=
  | Reset | FgCyan | FgWhite | FgYellow | FgRed | Faint | Underline | BlinkRapid.

Record Cell := mkCell { Ch : rune; Attr : list Attribute }.

Class Printer := {
  Cprint : string → list Attribute → list Cell;
  runes : string → list rune
}.

Section Renderer.

Context {V : Type} (Sprint : V → string) {printer : Printer}.

(** The [for _, m := range matches] loop of [itemText]. *)
Fixpoint highlight (matches : list Z) (highlighted : list Cell)
    : outcome (list Cell) :=
  match matches with
  | [] => Ret highlighted
  | m :: rest =>
      if len highlighted ⊟ 1 <? m then highlight rest highlighted
      else
        cell ← index highlighted m;
        highlight rest
          (<[Z.to_nat m := mkCell (Ch cell) (Attr cell ++ [Underline])]>
             highlighted)
  end.

Definition itemText (item : V) (matches : list Z) (selected : bool)
    : outcome (list Cell) :=
  let text := Sprint item in
  let line :=
    if selected then [] ++ Cprint "> " [FgCyan]
    else [] ++ Cprint "  " [FgWhite] in
  if len matches =? 0 then Ret (line ++ Cprint text [])
  else
    let highlighted := (λ r, mkCell r []) <$> runes text in
    highlighted ← highlight matches highlighted;
    Ret (line ++ highlighted).

(** How often the offset of row [i] occurs in [matches]. *)
Definition hits (i : nat) (matches : list Z) : nat :=
  length (filter (λ m, m = Z.of_nat i) matches).

End Renderer.

(** [allControls]: the two built-in entries, overwritten or followed by
    one entry per key binding, display label to description. *)
Definition add_control {V L} (controls : gmap string string)
    (kb : KeyBinding V L) : gmap string string :=
  <[Display kb := Desc kb]> controls.

Definition allControls {V L} (hooks : Hooks V L) : gmap string string :=
  let controls : gmap string string := ∅ in
  let controls := <["← ↓ ↑ → (h,j,k,l)"%string := "navigation"%string]> controls in
  let controls := <["/"%string := "toggle search"%string]> controls in
  fold_left add_control (keyBindings hooks) controls.

(** ** A concrete instance

    Items that are file names, an ordered-subsequence matcher that keeps
    the collection's order, the ASCII control codes for the keys, and the
    one-byte part of UTF-8.  The instance is used to run the model. *)
Module Sample.

Definition Sprint (v : option string) : string :=
  match v with
  | Some s => s
  | None => "<nil>"
  end.

(** The offsets at which [pat] is found, leftmost first, as a subsequence
    of [text]. *)
Fixpoint offsets (pat text : string) (pos : Z) : option (list Z) :=
  match pat with
  | EmptyString => Some []
  | String c pat' =>
      (fix scan (text : string) (pos : Z) : option (list Z) :=
         match text with
         | EmptyString => None
         | String d text' =>
             if Ascii.eqb c d
             then cons pos <$> offsets pat' text' (pos + 1)
             else scan text' (pos + 1)
         end) text pos
  end.

Fixpoint find_from (pat : string) (data : list string) (i : Z) : list Match :=
  match data with
  | [] => []
  | text :: data =>
      match offsets pat text 0 with
      | Some ms => mkMatch text i ms 0 :: find_from pat data (i + 1)
      | None => find_from pat data (i + 1)
      end
  end.

#[export] Instance matcher : Fuzzy := λ pat data, find_from pat data 0.

#[export] Instance term : Term := {|
  KeyCtrlC := 3; KeyCtrlD := 4; KeyCtrlU := 21;
  Enter := 13; NewLine := 10;
  ArrowUp := 16; ArrowDown := 14; ArrowLeft := 2; ArrowRight := 6;
  Backspace := 8; Backspace2 := 127
|}.

#[export] Instance utf8 : Utf8 := {|
  string_of_rune r := String (ascii_of_N (Z.to_N r)) EmptyString;
  DecodeLastRuneInString s :=
    match String.rev s with
    | String c _ => (Z.of_N (N_of_ascii c), 1)
    | EmptyString => (65533, 0)
    end
|}.

#[export] Instance ops : ListOps (option string) (AsyncList string) :=
  AsyncList_ops Sprint.

(** The list built by [NewAsyncList] once its goroutine has drained a
    stream that delivered [vals]. *)
Definition stream_list {A} `{Countable A} (vals : list (option A)) (sz : Z)
    : population A :=
  match NewAsyncList live_chan sz with
  | inr l => drain vals (spawn l)
  | inl _ => spawn (mkAsyncList [] [] ∅ 0 sz 0 "")
  end.

Definition numbers (n : nat) : list (option Z) :=
  (λ k, Some (Z.of_nat k)) <$> seq 0 n.

Definition files : list (option string) :=
  [Some "a.txt"; Some "b.txt"; Some "ab.go"]%string.

Definition file_list (sz : Z) : AsyncList string :=
  lst (stream_list files sz).

Definition world (l : AsyncList string) (help : bool)
    : World (option string) (AsyncList string) :=
  mkWorld (mkPrompt l true false help "Files" "" false) [].

(** Hooks whose handlers all fail. *)
Definition failing : handler (option string) (AsyncList string) :=
  λ _ p, (p, Some "handler failed"%string).

Definition hooks : Hooks (option string) (AsyncList string) :=
  mkHooks failing [mkKeyBinding 120 "x" failing "always fails"].

(** Hooks whose handlers all succeed and change nothing. *)
Definition succeeding : handler (option string) (AsyncList string) :=
  λ _ p, (p, None).

Definition quiet_hooks : Hooks (option string) (AsyncList string) :=
  mkHooks succeeding [mkKeyBinding 120 "x" succeeding "does nothing"].


(** Ten numbered items, all in Scope, shown four at a time. *)
Definition ten : AsyncList Z :=
  CancelSearch (lst (stream_list (numbers 10) 4)).

(** One cell per byte. *)
#[export] Instance printer : Printer := {|
  runes s := (λ c, Z.of_N (N_of_ascii c)) <$> String.list_ascii_of_string s;
  Cprint s attrs :=
    (λ c, mkCell (Z.of_N (N_of_ascii c)) attrs) <$> String.list_ascii_of_string s
|}.

End Sample.

(** * Facts *)

(** ** Go integers *)

Lemma GoInt_wrap_small z :
  GoInt.int_min ≤ z ≤ GoInt.int_max → GoInt.wrap z = z.
Proof.
  unfold GoInt.int_min, GoInt.int_max, GoInt.wrap. intros Hz.
  rewrite Z.mod_small by lia. lia.
Qed.

Lemma GoInt_wrap_in_range z :
  GoInt.int_min ≤ GoInt.wrap z ≤ GoInt.int_max.
Proof.
  unfold GoInt.int_min, GoInt.int_max, GoInt.wrap.
  pose proof (Z.mod_pos_bound (z + 2 ^ 63) (2 ^ 64) ltac:(lia)). lia.
Qed.

(** Name every wrapped sum, innermost first, keeping what is known of it. *)
Ltac name_wrap t :=
  lazymatch t with
  | context [GoInt.wrap _] => fail
  | _ => idtac
  end;
  let w := fresh "w" in
  pose proof (GoInt_wrap_small t);
  pose proof (GoInt_wrap_in_range t);
  set (w := GoInt.wrap t) in *; clearbody w.

Ltac name_wraps :=
  unfold GoInt.add, GoInt.sub in *;
  repeat match goal with
  | |- context [GoInt.wrap ?t] => name_wrap t
  | _ : context [GoInt.wrap ?t] |- _ => name_wrap t
  end;
  unfold GoInt.int_min, GoInt.int_max in *.

Ltac split_ifs :=
  repeat first
    [ progress cbn [items scope matches cursor size start find
                    set_items set_scope set_matches set_cursor set_start
                    set_find] in *
    | match goal with
      | |- context [if ?c then _ else _] =>
          lazymatch c with
          | context [if _ then _ else _] => fail
          | _ => destruct c eqn:?
          end
      end ].

Lemma len_nonneg {X} (s : list X) : 0 ≤ len s.
Proof. unfold len. lia. Qed.

Lemma len_nil_iff {X} (s : list X) : len s = 0 ↔ s = [].
Proof. unfold len. destruct s; cbn; split; (congruence || lia). Qed.

Lemma len_app {X} (s t : list X) : len (s ++ t) = len s + len t.
Proof. unfold len. rewrite length_app. lia. Qed.

Section ListFacts.

Context {A : Type} `{Countable A}.
Abbreviation value := (option A).
Context (Sprint : value → string).
Context {matcher : Fuzzy}.
Implicit Types (l : AsyncList A) (s : population A) (val : value).

Lemma Inv_arith l :
  Inv l ↔
  0 ≤ start l ≤ cursor l ∧
  cursor l ≤ Z.max 0 (len (scope l) - 1) ∧
  cursor l - start l < size l.
Proof.
  unfold Inv. pose proof (len_nonneg (scope l)) as Hlen.
  destruct (decide (scope l = [])) as [E|E].
  - assert (len (scope l) = 0) as E0 by (by apply len_nil_iff).
    split.
    + intros (? & H0 & _ & ?). destruct (H0 E). lia.
    + intros (? & ? & ?). repeat split; try lia. congruence.
  - assert (len (scope l) ≠ 0) as E0 by (by rewrite len_nil_iff).
    split.
    + intros (? & _ & H1 & ?). specialize (H1 E). lia.
    + intros (? & ? & ?). repeat split; try lia; congruence.
Qed.

Ltac list_arith :=
  intros; unfold Sound, fits in *; rewrite ?Inv_arith in *;
  repeat match goal with
  | l : AsyncList _ |- _ => destruct l
  end;
  split_ifs; name_wraps;
  repeat match goal with
  | |- context [len ?s] =>
      pose proof (len_nonneg s); generalize dependent (len s); intros
  end;
  lia.

Lemma Prev_Sound l : Sound l → Sound (Prev l).
Proof. unfold Prev. list_arith. Qed.

Lemma Next_Sound l : Sound l → fits l → Sound (Next l).
Proof. unfold Next. list_arith. Qed.

Lemma PageUp_Sound l : Sound l → Sound (PageUp l).
Proof. unfold PageUp. list_arith. Qed.

Lemma PageDown_Sound l :
  Sound l → scope l ≠ [] → fits l → Sound (PageDown l).
Proof.
  intros Hs Hne Hf. assert (0 < len (scope l)).
  { pose proof (len_nonneg (scope l)). pose proof (len_nil_iff (scope l)).
    destruct (decide (len (scope l) = 0)); [tauto | lia]. }
  clear Hne. revert Hs Hf. unfold PageDown. list_arith.
Qed.

Lemma SetCursor_Sound i l : Sound l → fits l → Sound (SetCursor i l).
Proof. unfold SetCursor. list_arith. Qed.

Lemma SetStart_Sound i l :
  Sound l → cursor l - i < size l → Sound (SetStart i l).
Proof. unfold SetStart. list_arith. Qed.

Lemma Inv_fits_Sound l : Inv l → fits l → Sound l.
Proof.
  unfold Sound, fits. rewrite Inv_arith. intros.
  pose proof (len_nonneg (scope l)). unfold GoInt.int_max in *. lia.
Qed.

(** [search] only touches Scope and MatchIndex. *)
Lemma search_loop_fields results : ∀ l l',
  search_loop results l = Ret l' →
  cursor l' = cursor l ∧ start l' = start l ∧ size l' = size l ∧
  items l' = items l ∧ find l' = find l.
Proof.
  induction results as [|r rest IH]; intros l l'; cbn.
  - intros [= <-]. done.
  - destruct (index (items l) (Index_ r)) as [item| |]; cbn; try done.
    intros Hl'. by apply IH in Hl'.
Qed.

Lemma search_fields term l l' :
  search Sprint term l = Ret l' →
  cursor l' = cursor l ∧ start l' = start l ∧ size l' = size l ∧
  items l' = items l ∧ find l' = find l.
Proof.
  unfold search. case_match.
  - intros [= <-]. done.
  - intros Hl'. by apply search_loop_fields in Hl'.
Qed.

Lemma Sound_top l :
  1 ≤ size l ≤ GoInt.int_max → cursor l = 0 → start l = 0 → Sound l.
Proof.
  intros Hsz Hc Hs. unfold Sound. rewrite Inv_arith, Hc, Hs.
  pose proof (len_nonneg (scope l)). unfold GoInt.int_max in *. lia.
Qed.

Lemma Search_Sound term l l' :
  Sound l → Search Sprint term l = Ret l' → Sound l'.
Proof.
  intros (_ & Hsz & _) Hl'. unfold Search in Hl'.
  apply search_fields in Hl' as (Hc & Hs & Hz & _). cbn in *.
  apply Sound_top; congruence.
Qed.

Lemma CancelSearch_Sound l : Sound l → Sound (CancelSearch l).
Proof. intros (_ & Hsz & _). by apply Sound_top. Qed.

Lemma NewAsyncList_Sound sz l :
  sz ≤ GoInt.int_max → NewAsyncList live_chan sz = inr l → Sound l.
Proof.
  unfold NewAsyncList. destruct (Z.ltb_spec sz 1); [done|].
  intros Hsz [= <-]. apply Sound_top; cbn; done.
Qed.

(** An iteration of the goroutine leaves Cursor, Start and VisibleSize
    alone and may only lengthen Scope. *)
Lemma feed_step_fields s val :
  cursor (lst (feed_step s val)) = cursor (lst s) ∧
  start (lst (feed_step s val)) = start (lst s) ∧
  size (lst (feed_step s val)) = size (lst s) ∧
  (scope (lst (feed_step s val)) = scope (lst s) ∨
   scope (lst (feed_step s val)) = scope (lst s) ++ [val]).
Proof.
  unfold feed_step. destruct s as [l [f d] u]; cbn.
  assert (∀ l0, cursor (addItem val l0) = cursor l0 ∧
                start (addItem val l0) = start l0 ∧
                size (addItem val l0) = size l0 ∧
                scope (addItem val l0) = scope l0) as Hadd.
  { intros l0. unfold addItem. by destruct val. }
  destruct (Hadd l) as (Hc & Hs & Hz & Hsc).
  repeat case_match; simplify_eq; cbn; rewrite ?Hc, ?Hs, ?Hz, ?Hsc; auto.
Qed.

Lemma feed_step_Sound s val : Sound (lst s) → Sound (lst (feed_step s val)).
Proof.
  destruct (feed_step_fields s val) as (Hc & Hs & Hz & Hsc).
  unfold Sound. rewrite !Inv_arith, Hc, Hs, Hz.
  destruct Hsc as [-> | ->]; [done|].
  rewrite len_app. pose proof (len_nonneg (scope (lst s))).
  change (len [val]) with 1. lia.
Qed.

Lemma exec_Sound c l l' :
  Sound l → admissible c l → exec Sprint c l = Ret l' → Sound l'.
Proof.
  intros Hs Hadm Hex. destruct c; cbn in *; simplify_eq;
    eauto using Prev_Sound, Next_Sound, PageUp_Sound, SetCursor_Sound,
      SetStart_Sound, Search_Sound, CancelSearch_Sound.
  destruct Hadm. by apply PageDown_Sound.
Qed.

Lemma reachable_Sound s : reachable Sprint s → Sound (lst s).
Proof.
  induction 1 as [sz l Hsz Hnew | s val _ IH | s c l' _ IH Hadm Hex].
  - by eapply NewAsyncList_Sound.
  - by apply feed_step_Sound.
  - by eapply exec_Sound.
Qed.

(** C1 (as amended): every state reached from [NewAsyncList] by
    iterations of the population goroutine and by calls of the public
    operations satisfies [0 <= Start <= Cursor <= len(Scope)-1] (both 0
    when Scope is empty) and [Cursor - Start < VisibleSize], provided
    [SetStart(i)] is only called with [Cursor - i < VisibleSize] and
    [PageDown] only on a non-empty Scope; and [SetCursor(c)] followed by
    [SetStart(s)], the restore path of a snapshot, keeps both invariants
    whenever the restored pair satisfies [0 <= s <= c] and
    [c - s < VisibleSize]. *)
Theorem reachable_invariant :
  (∀ s, reachable Sprint s → Inv (lst s)) ∧
  (∀ l c st,
     Inv l → fits l → 0 ≤ st ≤ c → c - st < size l →
     Inv (SetStart st (SetCursor c l))).
Proof.
  split.
  - intros s Hs. by destruct (reachable_Sound s Hs).
  - intros l c st Hinv Hfits Hst Hwin.
    pose proof (Inv_fits_Sound l Hinv Hfits) as Hsound.
    pose proof (SetCursor_Sound c l Hsound Hfits) as Hsound'.
    refine (proj1 (SetStart_Sound st _ Hsound' _)).
    clear Hsound'. revert Hsound Hfits Hst Hwin. clear Hinv.
    unfold SetCursor. list_arith.
Qed.

(** ** The visible window *)

Lemma index_lookup {X} (sc : list X) (i : Z) (x : X) :
  0 ≤ i → sc !! Z.to_nat i = Some x → index sc i = Ret x.
Proof.
  intros Hi Hx. unfold index. destruct (decide (0 ≤ i)); [|done].
  by rewrite Hx.
Qed.

(** The loop of [Items], started at row [i] with [j] rows behind it,
    copies the rows up to [end_] and finds the cursor among them. *)
Lemma Items_loop_spec l : ∀ fuel end_ i j active result,
  0 ≤ j ≤ i → i ≤ end_ → end_ ≤ len (scope l) →
  len (scope l) ≤ GoInt.int_max →
  (Z.to_nat (end_ - i) ≤ fuel)%nat →
  Items_loop fuel l end_ i j active result =
    Ret (result ++ take (Z.to_nat (end_ - i)) (drop (Z.to_nat i) (scope l)),
         if decide (i ≤ cursor l < end_) then j + (cursor l - i)
         else active).
Proof.
  induction fuel as [|fuel IH]; intros end_ i j active result Hj Hi He Hmax Hfuel.
  - assert (end_ = i) as -> by lia. cbn. rewrite Z.ltb_irrefl, Z.sub_diag.
    cbn. rewrite app_nil_r. destruct (decide _); [lia|done].
  - cbn. destruct (Z.ltb_spec i end_) as [Hlt|Hge].
    + destruct (lookup_lt_is_Some_2 (scope l) (Z.to_nat i)) as [v Hv].
      { unfold len in He. lia. }
      rewrite (index_lookup _ _ v) by (done || lia). cbn.
      assert (i ⊞ 1 = i + 1 ∧ j ⊞ 1 = j + 1) as [-> ->].
      { split; apply GoInt_wrap_small;
          unfold GoInt.int_min, GoInt.int_max in *; lia. }
      rewrite IH by lia.
      replace (Z.to_nat (end_ - i)) with (S (Z.to_nat (end_ - (i + 1)))) by lia.
      rewrite (drop_S _ v _ Hv). cbn [take].
      replace (Z.to_nat (i + 1)) with (S (Z.to_nat i)) by lia.
      rewrite <- app_assoc. cbn [app]. f_equal. f_equal.
      destruct (Z.eqb_spec (cursor l) i);
        repeat destruct (decide _); lia.
    + assert (end_ = i) as -> by lia. rewrite Z.sub_diag. cbn.
      rewrite app_nil_r. destruct (decide _); [lia|done].
Qed.

(** C2 (as amended): in every state with [0 <= Start] (and a positive
    VisibleSize, the sums being representable), [Items()] returns the
    window of at most VisibleSize consecutive Scope entries that starts at
    Start; the active index it returns is [Cursor - Start] if the cursor
    lies in that window and [NotFound] if it does not.  Hence, in a state
    that satisfies the two invariants, the active index is [NotFound] if
    and only if Scope is empty. *)
Theorem Items_window l :
  0 ≤ start l → 1 ≤ size l →
  start l + size l ≤ GoInt.int_max → len (scope l) ≤ GoInt.int_max →
  ∃ window active,
    Items l = Ret (window, active) ∧
    window = take (Z.to_nat (size l)) (drop (Z.to_nat (start l)) (scope l)) ∧
    len window ≤ size l ∧
    active = (if decide (start l ≤ cursor l < start l + len window)
              then cursor l - start l else NotFound) ∧
    (Inv l → (active = NotFound ↔ scope l = [])).
Proof.
  intros Hstart Hsize Hsum Hmax.
  pose proof (len_nonneg (scope l)) as Hlen.
  pose proof (len_nil_iff (scope l)) as Hnil.
  set (window := take (Z.to_nat (size l)) (drop (Z.to_nat (start l)) (scope l))).
  assert (len window = Z.max 0 (Z.min (size l) (len (scope l) - start l)))
    as Hwindow.
  { unfold window, len. rewrite length_take, length_drop. lia. }
  set (active := if decide (start l ≤ cursor l < start l + len window)
                 then cursor l - start l else NotFound).
  exists window, active.
  assert (Items l = Ret (window, active)) as HItems.
  { unfold Items.
    assert (start l ⊞ size l = start l + size l) as ->.
    { apply GoInt_wrap_small. unfold GoInt.int_min, GoInt.int_max in *. lia. }
    set (end_ := if len (scope l) <? start l + size l then len (scope l)
                 else start l + size l).
    assert (end_ = Z.min (len (scope l)) (start l + size l)) as Hend.
    { unfold end_.
      destruct (Z.ltb_spec (len (scope l)) (start l + size l)); lia. }
    destruct (Z.le_gt_cases (start l) (len (scope l))) as [Hin|Hout].
    - rewrite Items_loop_spec; unfold GoInt.int_max in *; try lia.
      2: { unfold len in *. lia. }
      cbn [app]. f_equal. f_equal.
      + unfold window.
        destruct (Z.le_gt_cases (start l + size l) (len (scope l))).
        * f_equal. lia.
        * rewrite !take_ge; [done| |]; rewrite length_drop;
            unfold len in *; lia.
      + unfold active. repeat destruct (decide _); lia.
    - cbn [Items_loop]. destruct (Z.ltb_spec (start l) end_); [lia|].
      f_equal. f_equal.
      + unfold window. rewrite drop_ge by (unfold len in *; lia).
        by rewrite take_nil.
      + unfold active. destruct (decide _); [lia|done]. }
  split; [done|]. split; [done|]. split; [lia|]. split; [done|].
  rewrite Inv_arith. intros (Hsc & Hcur & Hwin).
  unfold active, NotFound. destruct (decide _) as [Hc|Hc].
  - split; [lia|]. intros Hempty. apply Hnil in Hempty. lia.
  - split; [|done]. intros _. apply Hnil. lia.
Qed.

(** ** The absolute index *)

Lemma Index_loop_spec (sel : value) : ∀ (its : list value) i,
  (sel ∈ its →
   ∃ k : nat, Index_loop i its sel = i + Z.of_nat k ∧
              its !! k = Some sel ∧
              ∀ k' : nat, (k' < k)%nat → its !! k' ≠ Some sel) ∧
  (sel ∉ its → Index_loop i its sel = NotFound).
Proof.
  induction its as [|item its IH]; intros i; cbn.
  - split; [|done]. intros Hin. by apply elem_of_nil in Hin.
  - destruct (decide (item = sel)) as [->|Hne].
    + split.
      * intros _. exists 0%nat. repeat split; [lia|]. intros k' Hk'. lia.
      * intros Hnin. destruct Hnin. left.
    + destruct (IH (i + 1)) as [IHin IHnin]. split.
      * intros Hin. apply elem_of_cons in Hin as [->|Hin]; [done|].
        destruct (IHin Hin) as (k & Hk & Hlk & Hfirst).
        exists (S k). repeat split; [lia|done|].
        intros [|k'] Hk'; cbn; [congruence|]. apply Hfirst. lia.
      * intros Hnin. apply IHnin. intros Hin. apply Hnin. by right.
Qed.

(** C3 (as amended): [Index()] returns 0, not [NotFound], when Scope is
    empty; otherwise it returns the first absolute index within Items of
    the item under Cursor, and [NotFound] if that item does not occur in
    Items. *)
Theorem Index_spec l :
  (scope l = [] → Index l = Ret 0) ∧
  (∀ sel,
     0 ≤ cursor l → scope l !! Z.to_nat (cursor l) = Some sel →
     ∃ i, Index l = Ret i ∧
          (sel ∈ items l →
           0 ≤ i ∧ items l !! Z.to_nat i = Some sel ∧
           ∀ j : nat, (j < Z.to_nat i)%nat → items l !! j ≠ Some sel) ∧
          (sel ∉ items l → i = NotFound)).
Proof.
  split.
  - intros Hsc. unfold Index. by rewrite Hsc.
  - intros sel Hc Hsel. unfold Index.
    assert (0 < len (scope l)) as Hlen.
    { apply lookup_lt_Some in Hsel. unfold len. lia. }
    destruct (Z.leb_spec (len (scope l)) 0); [lia|].
    rewrite (index_lookup _ _ sel) by done. cbn.
    eexists. split; [done|].
    destruct (Index_loop_spec sel (items l) 0) as [Hin Hnin].
    split; [|done].
    intros Hmem. destruct (Hin Hmem) as (k & -> & Hk & Hfirst).
    rewrite Z.add_0_l, Nat2Z.id. repeat split; [lia|done|done].
Qed.

(** ** Leaving a search *)

(** C6 (as amended): [CancelSearch()] restores Scope to exactly Items in
    original order, puts Cursor and Start back to 0 and leaves MatchIndex
    as it was; [Search] with a query that is empty after trimming resets
    Scope to Items, Cursor and Start to 0 and the stored query to the
    empty string. *)
Theorem CancelSearch_restores l :
  (scope (CancelSearch l) = items l ∧
   items (CancelSearch l) = items l ∧
   cursor (CancelSearch l) = 0 ∧
   start (CancelSearch l) = 0 ∧
   matches (CancelSearch l) = matches l) ∧
  (∀ term,
     trim term = ""%string →
     ∃ l', Search Sprint term l = Ret l' ∧
           scope l' = items l ∧ items l' = items l ∧
           cursor l' = 0 ∧ start l' = 0 ∧ find l' = ""%string).
Proof.
  split; [done|].
  intros term Hterm. unfold Search, search. rewrite Hterm. cbn.
  eexists. split; [done|]. done.
Qed.

(** ** Paging down *)

(** C9 (as amended): [PageDown()] moves Start to
    [min(Start + VisibleSize, len(Scope) - VisibleSize)], or to 0 if
    [len(Scope) < VisibleSize]; if the new Start equals the previous
    Cursor exactly then Cursor is set to the last index of Scope;
    otherwise Cursor is moved to the new Start if it was before it and is
    left where it was if it was beyond it. *)
Theorem PageDown_spec l :
  GoInt.in_range (start l + size l) →
  GoInt.in_range (len (scope l) - size l) →
  GoInt.in_range (len (scope l) - 1) →
  let l' := PageDown l in
  start l' =
    (if len (scope l) <? size l then 0
     else Z.min (start l + size l) (len (scope l) - size l)) ∧
  cursor l' =
    (if start l' =? cursor l then len (scope l) - 1
     else if cursor l <? start l' then start l'
     else cursor l) ∧
  scope l' = scope l ∧ items l' = items l ∧ size l' = size l ∧
  matches l' = matches l.
Proof.
  intros H1 H2 H3. pose proof (len_nonneg (scope l)) as Hlen. cbn zeta.
  unfold PageDown, GoInt.add, GoInt.sub.
  destruct l as [its sc ma cu sz st fi]; cbn in *.
  rewrite !GoInt_wrap_small by done.
  split_ifs; rewrite ?GoInt_wrap_small by done; clear H1 H2 H3;
    generalize dependent (len sc); intros n Hn;
    repeat split; lia.
Qed.

(** ** Progress notifications *)

Lemma feed_step_fed k s val : 0 ≤ k → fed k s → fed (k + 1) (feed_step s val).
Proof.
  unfold fed, feed_step. intros Hk.
  destruct s as [l [f d] u]; cbn.
  destruct (decide (k + 1 = 0)); [lia|].
  replace (k + 1 - 1) with k by lia.
  destruct (decide (k = 0)) as [-> | Hk0].
  - intros [-> ->]. repeat case_match; simplify_eq; cbn; done.
  - intros [Hf Hu].
    pose proof (Z.mod_pos_bound (k - 1) 201 ltac:(done)) as Hbound.
    assert (f ⊞ 1 = f + 1 ∧ 0 ⊞ 1 = 1) as [Ef E0].
    { split; apply GoInt_wrap_small;
        unfold GoInt.int_min, GoInt.int_max; lia. }
    repeat case_match; simplify_eq; cbn [flush fd updates];
      rewrite ?Ef, ?E0; clear Ef E0; Z.div_mod_to_equations; lia.
Qed.

Lemma feed_fed vals : ∀ k s,
  0 ≤ k → fed k s → fed (k + len vals) (feed vals s).
Proof.
  induction vals as [|val vals IH]; intros k s Hk Hfed; cbn.
  - change (len []) with 0. by rewrite Z.add_0_r.
  - replace (k + len (val :: vals)) with (k + 1 + len vals)
      by (unfold len; cbn [length]; lia).
    apply IH; [lia|]. by apply feed_step_fed.
Qed.

(** C5 (as amended): on a stream of [n] items the goroutine sends a
    notification while it handles the items numbered 202, 403, 604, ...,
    that is [(n-1)/201] of them (none for the empty stream), and exactly
    one more when the stream is closed. *)
Theorem drain_updates (vals : list value) (l : AsyncList A) :
  updates (feed vals (spawn l)) = ((length vals - 1) / 201)%nat ∧
  updates (drain vals (spawn l)) = S ((length vals - 1) / 201)%nat.
Proof.
  assert (updates (feed vals (spawn l)) = ((length vals - 1) / 201)%nat)
    as Hfeed.
  { pose proof (feed_fed vals 0 (spawn l) ltac:(done)) as Hfed.
    unfold fed at 1 in Hfed. cbn in Hfed. specialize (Hfed ltac:(done)).
    unfold fed, len in Hfed. rewrite Z.add_0_l in Hfed.
    destruct vals as [|val vals]; cbn [length] in *.
    - destruct (decide (0 = 0)); [|done]. by destruct Hfed as [_ ->].
    - destruct (decide (Z.of_nat (S (length vals)) = 0)); [lia|].
      destruct Hfed as [_ Hu]. apply Nat2Z.inj.
      rewrite Hu, Nat2Z.inj_div, Nat2Z.inj_sub by lia. done. }
  split; [done|]. unfold drain, feed_close; cbn. by rewrite Hfeed.
Qed.

(** ** Further facts on the list operations *)

Ltac list_cases :=
  intros; unfold Sound, fits in *; rewrite ?Inv_arith in *;
  repeat match goal with
  | l : AsyncList _ |- _ => pose proof (len_nonneg (scope l)); destruct l
  end;
  split_ifs; name_wraps;
  repeat match goal with
  | H : 0 ≤ len ?s |- _ => generalize dependent (len s); intros
  end;
  unfold set_items, set_scope, set_matches, set_cursor, set_start, set_find;
  cbn [items scope matches cursor size start find];
  first [lia | reflexivity | f_equal; lia].

(** X1: [NewAsyncList] fails exactly when the size is below 1 or the
    channel is nil; the list it returns otherwise is empty, has the size
    asked for, Cursor and Start 0, and satisfies the invariants. *)
Theorem NewAsyncList_result (ch : chan) (sz : Z) :
  ((∃ msg, NewAsyncList (A:=A) ch sz = inl msg) ↔ sz < 1 ∨ ch = nil_chan) ∧
  (∀ l, NewAsyncList ch sz = inr l →
        items l = [] ∧ scope l = [] ∧ matches l = ∅ ∧
        cursor l = 0 ∧ start l = 0 ∧ size l = sz ∧ Inv l).
Proof.
  unfold NewAsyncList. destruct (Z.ltb_spec sz 1) as [Hlt|Hge].
  - split; [|done]. split; [auto|]. intros _. eauto.
  - destruct ch.
    + split; [|done]. split; [auto|]. intros _. eauto.
    + split.
      * split; [intros [msg [=]]|]. intros [?|[=]]. lia.
      * intros l [= <-]. cbn. repeat split; try done; cbn; lia.
Qed.

(** X2: at the boundaries [Prev()] and [Next()] change nothing: [Prev()]
    with the cursor on the first entry and [Next()] with the cursor on the
    last entry (or on an empty Scope) return the list as it is. *)
Theorem Prev_Next_at_boundaries l :
  Inv l → fits l →
  (cursor l = 0 → Prev l = l) ∧
  (len (scope l) - 1 ≤ cursor l → Next l = l).
Proof.
  intros Hinv Hfits. split; intros Hc; revert Hinv Hfits Hc.
  - unfold Prev. list_cases.
  - unfold Next. list_cases.
Qed.

(** X3: away from the boundaries [Next()] and [Prev()] move the cursor by
    exactly one entry, and each undoes the other's move of the cursor. *)
Theorem Prev_Next_step l :
  Inv l → fits l →
  (cursor l < len (scope l) - 1 →
   cursor (Next l) = cursor l + 1 ∧ cursor (Prev (Next l)) = cursor l) ∧
  (0 < cursor l →
   cursor (Prev l) = cursor l - 1 ∧ cursor (Next (Prev l)) = cursor l).
Proof.
  intros Hinv Hfits. split; intros Hc; revert Hinv Hfits Hc.
  - unfold Prev, Next. list_cases.
  - unfold Prev, Next. list_cases.
Qed.

(** X4: [PageUp()] moves Start back by VisibleSize, stopping at 0, and
    always leaves the cursor on the first visible row. *)
Theorem PageUp_spec l :
  Inv l → fits l →
  start (PageUp l) = Z.max 0 (start l - size l) ∧
  cursor (PageUp l) = start (PageUp l) ∧
  scope (PageUp l) = scope l ∧ items (PageUp l) = items l.
Proof.
  intros Hinv Hfits.
  assert (start (PageUp l) = Z.max 0 (start l - size l) ∧
          cursor (PageUp l) = start (PageUp l)) as [? ?].
  { revert Hinv Hfits. unfold PageUp. list_cases. }
  repeat split; try done; unfold PageUp; by repeat case_match.
Qed.

(** The operations other than [Search] and [CancelSearch] leave Items,
    Scope, MatchIndex, VisibleSize and the query alone. *)
Lemma navigation_fields (c : call) l l' :
  match c with CSearch _ | CCancelSearch => False | _ => True end →
  exec Sprint c l = Ret l' →
  items l' = items l ∧ scope l' = scope l ∧ matches l' = matches l ∧
  size l' = size l ∧ find l' = find l.
Proof.
  intros Hc Hex. destruct c; cbn in *; try done; simplify_eq;
    unfold Prev, Next, PageUp, PageDown, SetCursor, SetStart;
    by repeat case_match.
Qed.

(** X5: as long as [CanPageDown()] holds, [PageDown()] moves Start
    forward and not beyond [len(Scope) - VisibleSize]; as long as
    [CanPageUp()] holds, [PageUp()] moves Start backward and not below 0. *)
Theorem paging_progress l :
  Inv l → fits l →
  (CanPageDown l = true →
   start l < start (PageDown l) ≤ len (scope l) - size l) ∧
  (CanPageUp l = true → 0 ≤ start (PageUp l) < start l).
Proof.
  intros Hinv Hfits. split; intros Hc; revert Hinv Hfits Hc.
  - unfold CanPageDown, PageDown. list_cases.
  - unfold CanPageUp, PageUp. list_cases.
Qed.

Lemma PageDown_CanPageDown l :
  Sound l → fits l → scope l ≠ [] →
  (CanPageDown l = false → CanPageDown (PageDown l) = false) ∧
  (CanPageDown l = true →
   CanPageDown (PageDown l) = false ∨
   len (scope l) - start (PageDown l) < len (scope l) - start l).
Proof.
  intros Hs Hf Hne. assert (0 < len (scope l)) as Hpos.
  { pose proof (len_nonneg (scope l)). pose proof (len_nil_iff (scope l)).
    destruct (decide (len (scope l) = 0)); [tauto | lia]. }
  clear Hne. split; intros Hc; revert Hs Hf Hpos Hc;
    unfold CanPageDown, PageDown; list_cases.
Qed.

Lemma PageDown_scope l : scope (PageDown l) = scope l ∧ size (PageDown l) = size l.
Proof. unfold PageDown. by repeat case_match. Qed.

Lemma PageDown_iter n : ∀ l,
  Sound l → fits l → scope l ≠ [] →
  (Z.to_nat (len (scope l) - start l) ≤ n)%nat →
  CanPageDown (Nat.iter n PageDown l) = false.
Proof.
  induction n as [|n IH]; intros l Hs Hf Hne Hn.
  - cbn. revert Hs Hf Hn. unfold CanPageDown. list_cases.
  - rewrite Nat.iter_succ_r.
    destruct (PageDown_scope l) as [Hsc Hsz].
    destruct (PageDown_CanPageDown l Hs Hf Hne) as [Hstay Hmove].
    assert (Sound (PageDown l)) as Hs' by by apply PageDown_Sound.
    assert (fits (PageDown l)) as Hf' by (unfold fits in *; by rewrite Hsc, Hsz).
    assert (scope (PageDown l) ≠ []) as Hne' by by rewrite Hsc.
    destruct (CanPageDown l) eqn:Hcan.
    + destruct (Hmove eq_refl) as [Hdone|Hless].
      * clear IH. revert Hdone Hs' Hf' Hne'. generalize (PageDown l).
        clear. induction n as [|n IH]; intros l Hdone Hs Hf Hne; [done|].
        rewrite Nat.iter_succ_r.
        destruct (PageDown_scope l) as [Hsc Hsz].
        apply IH.
        -- by apply (PageDown_CanPageDown l Hs Hf Hne).
        -- by apply PageDown_Sound.
        -- unfold fits in *. by rewrite Hsc, Hsz.
        -- by rewrite Hsc.
      * apply IH; try done. rewrite Hsc. lia.
    + specialize (Hstay eq_refl). clear IH Hn.
      revert Hstay Hs' Hf' Hne'. generalize (PageDown l).
      clear. induction n as [|n IH]; intros l Hdone Hs Hf Hne; [done|].
      rewrite Nat.iter_succ_r.
      destruct (PageDown_scope l) as [Hsc Hsz].
      apply IH.
      * by apply (PageDown_CanPageDown l Hs Hf Hne).
      * by apply PageDown_Sound.
      * unfold fits in *. by rewrite Hsc, Hsz.
      * by rewrite Hsc.
Qed.

(** X6: on a non-empty Scope, [len(Scope)] calls of [PageDown()] (or
    more) always reach a state in which [CanPageDown()] is false, and
    there Start + VisibleSize >= len(Scope). *)
Theorem PageDown_reaches_end l n :
  Inv l → fits l → scope l ≠ [] →
  (Z.to_nat (len (scope l)) ≤ n)%nat →
  CanPageDown (Nat.iter n PageDown l) = false ∧
  len (scope l) ≤ start (Nat.iter n PageDown l) + size l.
Proof.
  intros Hinv Hfits Hne Hn.
  pose proof (Inv_fits_Sound l Hinv Hfits) as Hs.
  assert (CanPageDown (Nat.iter n PageDown l) = false) as Hcan.
  { apply PageDown_iter; try done. rewrite Inv_arith in Hinv. lia. }
  split; [done|].
  assert (scope (Nat.iter n PageDown l) = scope l ∧
          size (Nat.iter n PageDown l) = size l ∧
          Sound (Nat.iter n PageDown l)) as (Hsc & Hsz & Hs').
  { clear Hn Hcan. induction n as [|n IH]; [done|]. rewrite Nat.iter_succ.
    destruct IH as (Hsc & Hsz & Hs').
    destruct (PageDown_scope (Nat.iter n PageDown l)) as [Hsc' Hsz'].
    split; [congruence|]. split; [congruence|].
    apply PageDown_Sound; [done|by rewrite Hsc|].
    unfold fits in *. by rewrite Hsc, Hsz. }
  revert Hcan Hs'. unfold CanPageDown. rewrite Hsc, Hsz.
  unfold fits, Sound in *. rewrite Inv_arith. intros Hcan Hs'.
  assert (start (Nat.iter n PageDown l) ⊞ size l
          = start (Nat.iter n PageDown l) + size l) as E.
  { apply GoInt_wrap_small. rewrite Hsc in Hs'.
    pose proof (len_nonneg (scope l)).
    unfold GoInt.int_min, GoInt.int_max in *. lia. }
  rewrite E in Hcan. lia.
Qed.

(** Replaying a pair [(c, st)] of Cursor and Start on a freshly built
    list. *)
Lemma SetCursor_SetStart_fresh l c st :
  cursor l = 0 → start l = 0 → scope l ≠ [] → fits l →
  0 ≤ st ≤ c → c - st < size l →
  cursor (SetStart st (SetCursor c l)) = Z.min c (len (scope l) - 1) ∧
  start (SetStart st (SetCursor c l))
    = Z.min st (cursor (SetStart st (SetCursor c l))).
Proof.
  intros Hc Hs Hne Hfits Hst Hwin. assert (0 < len (scope l)) as Hpos.
  { pose proof (len_nonneg (scope l)). pose proof (len_nil_iff (scope l)).
    destruct (decide (len (scope l) = 0)); [tauto | lia]. }
  clear Hne. revert Hc Hs Hfits Hst Hwin Hpos.
  unfold SetStart, SetCursor. list_cases.
Qed.

Lemma SetCursor_SetStart_own l :
  Inv l → fits l → SetStart (start l) (SetCursor (cursor l) l) = l.
Proof. unfold SetStart, SetCursor. list_cases. Qed.

Lemma SetCursor_SetStart_fields c st l :
  items (SetStart st (SetCursor c l)) = items l ∧
  scope (SetStart st (SetCursor c l)) = scope l ∧
  matches (SetStart st (SetCursor c l)) = matches l ∧
  size (SetStart st (SetCursor c l)) = size l ∧
  find (SetStart st (SetCursor c l)) = find l.
Proof. unfold SetStart, SetCursor. by repeat case_match. Qed.

(** X7: a snapshot taken with [State()] and restored with [SetState] on
    a freshly built list (Cursor and Start 0, Scope non-empty, the same
    VisibleSize) keeps search mode, query and label, puts the cursor on
    the entry it was on if the new Scope still has it and on the last
    entry otherwise, puts Start where it was or, if that is below the
    cursor, on the cursor, and does not filter the new list: its Scope,
    Items and MatchIndex stay as built.  The invariants hold again. *)
Theorem SetState_on_fresh_list (p : Prompt (AsyncList A)) (l' : AsyncList A) :
  Inv (plist p) →
  cursor l' = 0 → start l' = 0 → scope l' ≠ [] → fits l' →
  size l' = size (plist p) →
  let p' := Snapshot.SetState (Snapshot.with_List l' (Snapshot.get p)) p in
  inputMode p' = inputMode p ∧ input p' = input p ∧
  itemsLabel p' = itemsLabel p ∧ helpMode p' = helpMode p ∧
  cursor (plist p') = Z.min (cursor (plist p)) (len (scope l') - 1) ∧
  start (plist p') = Z.min (start (plist p)) (cursor (plist p')) ∧
  scope (plist p') = scope l' ∧ items (plist p') = items l' ∧
  matches (plist p') = matches l' ∧
  Inv (plist p').
Proof.
  intros Hinv Hc Hs Hne Hfits Hsz p'.
  pose proof Hinv as Hinv'. rewrite Inv_arith in Hinv'.
  destruct (SetCursor_SetStart_fresh l' (cursor (plist p)) (start (plist p)))
    as [Hcur Hstart]; try done; try lia.
  destruct (SetCursor_SetStart_fields (cursor (plist p)) (start (plist p)) l')
    as (Hi & Hsc & Hm & _ & _).
  assert (Sound l') as Hsound.
  { apply Inv_fits_Sound; [|done]. rewrite Inv_arith, Hc, Hs, Hsz.
    pose proof (len_nonneg (scope l')). lia. }
  assert (Inv (plist p')) as Hinv_p'.
  { subst p'. cbn. unfold Start.
    refine (proj1 (SetStart_Sound _ _ (SetCursor_Sound _ _ Hsound Hfits) _)).
    revert Hc Hs Hfits Hinv' Hsz. clear.
    generalize (len (scope (plist p))) (cursor (plist p)) (start (plist p))
      (size (plist p)).
    unfold SetCursor. list_cases. }
  subst p'. cbn in *. unfold Start in *. split_and!; done.
Qed.

(** X8: on a list that satisfies the invariants, restoring the prompt's
    own snapshot changes nothing: [SetState(State())] is the identity. *)
Theorem SetState_own_snapshot (p : Prompt (AsyncList A)) :
  Inv (plist p) → fits (plist p) →
  Snapshot.SetState (Snapshot.get p) p = p.
Proof.
  intros Hinv Hfits. unfold Snapshot.SetState, Snapshot.get, Start.
  cbn. rewrite SetCursor_SetStart_own by done. by destruct p.
Qed.

(** What [Items()] returns in a state that satisfies the invariants. *)
Lemma Items_Inv l :
  Inv l → fits l →
  Items l =
    Ret (take (Z.to_nat (size l)) (drop (Z.to_nat (start l)) (scope l)),
         if decide (scope l = []) then NotFound else cursor l - start l).
Proof.
  intros Hinv Hfits. rewrite Inv_arith in Hinv. unfold fits in Hfits.
  pose proof (len_nonneg (scope l)) as Hlen.
  pose proof (len_nil_iff (scope l)) as Hnil.
  unfold Items.
  assert (start l ⊞ size l = start l + size l) as ->.
  { apply GoInt_wrap_small. unfold GoInt.int_min, GoInt.int_max in *. lia. }
  set (end_ := if len (scope l) <? start l + size l then len (scope l)
               else start l + size l).
  assert (end_ = Z.min (len (scope l)) (start l + size l)) as Hend.
  { unfold end_.
    destruct (Z.ltb_spec (len (scope l)) (start l + size l)); lia. }
  rewrite Items_loop_spec; unfold GoInt.int_max in *; try lia.
  2: { unfold len in *. lia. }
  cbn [app]. f_equal. f_equal.
  - destruct (Z.le_gt_cases (start l + size l) (len (scope l))).
    + f_equal. lia.
    + rewrite !take_ge; [done| |]; rewrite length_drop; unfold len in *; lia.
  - destruct (decide (scope l = [])) as [Hsc|Hsc]; destruct (decide _);
      try done; try lia.
    + apply Hnil in Hsc. lia.
    + rewrite <- Hnil in Hsc. lia.
Qed.

(** In such a state the active row of the window holds the Scope entry
    under the cursor. *)
Lemma window_active l :
  Inv l → scope l ≠ [] →
  ∃ v, scope l !! Z.to_nat (cursor l) = Some v ∧
       index (take (Z.to_nat (size l)) (drop (Z.to_nat (start l)) (scope l)))
         (cursor l - start l) = Ret v.
Proof.
  intros Hinv Hne. rewrite Inv_arith in Hinv.
  pose proof (len_nonneg (scope l)) as Hlen.
  pose proof (len_nil_iff (scope l)) as Hnil.
  destruct (lookup_lt_is_Some_2 (scope l) (Z.to_nat (cursor l))) as [v Hv].
  { unfold len in *. destruct (decide (length (scope l) = 0%nat)); [|lia].
    destruct Hne. apply Hnil. lia. }
  exists v. split; [done|]. apply index_lookup; [lia|].
  rewrite lookup_take_lt by lia. rewrite lookup_drop. rewrite <- Hv.
  f_equal. lia.
Qed.

(** ** Further facts on searching *)

(** What the loop of [search] leaves behind: it appends to Scope the
    items the matches point at, in the order of the matches, and records
    the offsets of each one under its item. *)
Lemma search_loop_spec results : ∀ l l',
  search_loop results l = Ret l' →
  ∃ picked,
    Forall2 (λ r v, index (items l) (Index_ r) = Ret v) results picked ∧
    scope l' = scope l ++ picked ∧
    (∀ v, is_Some (matches l' !! v) ↔ is_Some (matches l !! v) ∨ v ∈ picked) ∧
    (∀ v offs, matches l' !! v = Some offs →
       matches l !! v = Some offs ∨
       ∃ r, r ∈ results ∧ index (items l) (Index_ r) = Ret v ∧
            MatchedIndexes r = offs).
Proof.
  induction results as [|r rest IH]; intros l l'; cbn.
  - intros [= <-]. exists []. rewrite app_nil_r.
    repeat split; auto.
    + intros [?|Hin]; [done|]. by apply elem_of_nil in Hin.
  - destruct (index (items l) (Index_ r)) as [item| |] eqn:Hitem; cbn; try done.
    intros Hl'. apply IH in Hl' as (picked & Hall & Hsc & Hdom & Hval).
    cbn in *. exists (item :: picked). split; [by constructor|].
    split; [by rewrite Hsc, <- app_assoc|]. split.
    + intros v. rewrite Hdom, elem_of_cons.
      destruct (decide (item = v)) as [->|Hne].
      * rewrite lookup_insert_eq. split; [auto|]. intros _. left. by eexists.
      * rewrite lookup_insert_ne by done.
        split; [intros [?|?]; auto | intros [?|[?|?]]; auto; done].
    + intros v offs Hv. apply Hval in Hv as [Hv|(r' & Hr' & Hidx & Hoffs)].
      * destruct (decide (item = v)) as [->|Hne].
        -- rewrite lookup_insert_eq in Hv. simplify_eq. right.
           exists r. split; [left|done].
        -- rewrite lookup_insert_ne in Hv by done. by left.
      * right. exists r'. split; [by right|done].
Qed.

Lemma index_elem_of {X} (sc : list X) (i : Z) (x : X) :
  index sc i = Ret x → x ∈ sc ∧ 0 ≤ i < len sc.
Proof.
  unfold index. destruct (decide (0 ≤ i)); [|done].
  destruct (sc !! Z.to_nat i) eqn:Hx; [|done]. intros [= <-].
  split; [by eapply list_elem_of_lookup_2|].
  apply lookup_lt_Some in Hx. unfold len. lia.
Qed.

(** X9: after [Search] with a query that is not empty once trimmed, Scope
    lists, in the matcher's order, the items the matches point at (so
    every Scope entry is an item), MatchIndex has an entry exactly for
    the Scope entries, holding the offsets of a match of that item, and
    Cursor and Start are 0. *)
Theorem Search_result term l l' :
  trim term ≠ ""%string →
  Search Sprint term l = Ret l' →
  let results := FindFrom (trim term) (Sprint <$> items l) in
  Forall2 (λ r v, index (items l) (Index_ r) = Ret v) results (scope l') ∧
  (∀ v, v ∈ scope l' → v ∈ items l) ∧
  (∀ v, is_Some (matches l' !! v) ↔ v ∈ scope l') ∧
  (∀ v offs, matches l' !! v = Some offs →
     ∃ r, r ∈ results ∧ index (items l) (Index_ r) = Ret v ∧
          MatchedIndexes r = offs) ∧
  items l' = items l ∧ size l' = size l ∧
  cursor l' = 0 ∧ start l' = 0 ∧ find l' = trim term.
Proof.
  intros Hterm HSearch results.
  pose proof HSearch as Hfields. unfold Search in Hfields.
  apply search_fields in Hfields as (Hc & Hs & Hz & Hi & Hf). cbn in *.
  unfold Search, search in HSearch.
  destruct (trim term) as [|c t] eqn:Et; [done|]. cbn in HSearch.
  apply search_loop_spec in HSearch as (picked & Hall & Hsc & Hdom & Hval).
  cbn in *. subst picked. repeat split; try done.
  - intros v Hv. apply list_elem_of_lookup in Hv as [i Hv].
    destruct (Forall2_lookup_r _ _ _ _ _ Hall Hv) as (r & _ & Hidx).
    by apply index_elem_of in Hidx as [? _].
  - intros Hsome. apply Hdom in Hsome as [[? Hsome]|?]; [|done].
    by rewrite lookup_empty in Hsome.
  - intros Hv. apply Hdom. by right.
  - intros v offs Hv. apply Hval in Hv as [Hv|?]; [|done].
    by rewrite lookup_empty in Hv.
Qed.

Lemma search_loop_runs results : ∀ l,
  (Forall (λ r, 0 ≤ Index_ r < len (items l)) results →
   ∃ l', search_loop results l = Ret l') ∧
  (Exists (λ r, ¬ 0 ≤ Index_ r < len (items l)) results →
   search_loop results l = Panic).
Proof.
  induction results as [|r rest IH]; intros l.
  - split; [by eexists|]. intros Hex. by apply Exists_nil in Hex.
  - cbn.
    destruct (index (items l) (Index_ r)) as [item| |] eqn:Hitem; cbn.
    + set (l1 := set_matches _ _).
      destruct (IH l1) as [IHok IHbad]. split.
      * intros Hall. apply Forall_cons in Hall as [_ Hall]. by apply IHok.
      * intros Hex. apply Exists_cons in Hex as [Hbad|Hex]; [|by apply IHbad].
        by apply index_elem_of in Hitem as [_ ?].
    + split; [|done]. intros Hall. apply Forall_cons in Hall as [Hr _].
      unfold index in Hitem. destruct (decide (0 ≤ Index_ r)); [|lia].
      destruct (lookup_lt_is_Some_2 (items l) (Z.to_nat (Index_ r))) as [v Hv].
      { unfold len in Hr. lia. }
      by rewrite Hv in Hitem.
    + unfold index in Hitem. by repeat case_match.
Qed.

(** X10: [Search] returns whenever every match of the matcher points
    inside Items (and always for an empty query); it panics, on
    [l.items[r.Index]], as soon as one match points outside. *)
Theorem Search_runs term l :
  let results := FindFrom (trim term) (Sprint <$> items l) in
  (trim term = ""%string ∨
   Forall (λ r, 0 ≤ Index_ r < len (items l)) results →
   ∃ l', Search Sprint term l = Ret l') ∧
  (trim term ≠ ""%string →
   Exists (λ r, ¬ 0 ≤ Index_ r < len (items l)) results →
   Search Sprint term l = Panic).
Proof.
  intros results. unfold Search, search.
  destruct (trim term) as [|c t] eqn:Et; cbn.
  - split; [by eexists|done].
  - split.
    + intros [?|Hall]; [done|]. by apply search_loop_runs.
    + intros _ Hex. by apply search_loop_runs.
Qed.

(** X11: searching twice for the same query gives the same list as
    searching once. *)
Theorem Search_idempotent term l l' :
  Search Sprint term l = Ret l' → Search Sprint term l' = Ret l'.
Proof.
  intros HSearch. pose proof HSearch as Hfields. unfold Search in Hfields.
  apply search_fields in Hfields as (Hc & Hs & Hz & Hi & Hf). cbn in *.
  unfold Search, search in *.
  destruct (String.length (trim term) =? 0)%nat eqn:Elen; cbn in *.
  - simplify_eq. cbn. done.
  - rewrite Hi. rewrite <- HSearch. f_equal.
    destruct l, l'; cbn in *. by subst.
Qed.

(** ** Further facts on the population goroutine *)

Lemma feed_snoc vals val s : feed (vals ++ [val]) s = feed_step (feed vals s) val.
Proof. unfold feed. by rewrite fold_left_app. Qed.


Lemma feed_size vals s : size (lst (feed vals s)) = size (lst s).
Proof.
  induction vals as [|val vals IH] using rev_ind; [done|].
  rewrite feed_snoc.
  destruct (feed_step_fields (feed vals s) val) as (_ & _ & Hz & _).
  by rewrite Hz.
Qed.


(** One iteration, [k] iterations after the start: the value goes to
    Scope if and only if [k mod 201] is below VisibleSize, and [done]
    stays false. *)
Lemma feed_step_scope k s val :
  0 ≤ k → fed k s → done (fd s) = false →
  scope (lst (feed_step s val)) =
    scope (lst s) ++ (if decide (k `mod` 201 < size (lst s)) then [val] else []) ∧
  done (fd (feed_step s val)) = false.
Proof.
  intros Hk Hfed Hdone.
  destruct s as [l [f d] u]; cbn in *. subst d.
  assert (size (addItem val l) = size l ∧ scope (addItem val l) = scope l)
    as [Hz Hsc] by (unfold addItem; by destruct val).
  assert ((if 200 <? f then 0 else f) = k `mod` 201) as Hmod.
  { unfold fed in Hfed. cbn in Hfed.
    pose proof (Z.mod_pos_bound (k - 1) 201 ltac:(done)) as Hbound.
    destruct (decide (k = 0)) as [->|Hk0]; destruct Hfed as [-> _];
      [done|]. case_match; Z.div_mod_to_equations; lia. }
  unfold feed_step; cbn [lst fd flush done updates].
  destruct (200 <? f); rewrite <- Hmod;
    cbn [negb]; rewrite Hz, andb_true_r.
  - destruct (Z.ltb_spec 0 (size l)); destruct (decide _); try lia;
      cbn [lst fd done scope set_scope]; rewrite ?Hz, ?Hsc, ?app_nil_r;
      (split; [done|]).
    + cbn [size set_scope]. rewrite Hz.
      by destruct (Z.eqb_spec 0 (size l)); [lia|].
    + done.
  - destruct (Z.ltb_spec f (size l)); destruct (decide _); try lia;
      cbn [lst fd done scope set_scope]; rewrite ?Hz, ?Hsc, ?app_nil_r;
      (split; [done|]).
    + cbn [size set_scope]. rewrite Hz.
      by destruct (Z.eqb_spec f (size l)); [lia|].
    + done.
Qed.

Lemma feed_done vals l :
  fed (len vals) (feed vals (spawn l)) ∧ done (fd (feed vals (spawn l))) = false.
Proof.
  induction vals as [|val vals [IHfed IHdone]] using rev_ind; [done|].
  rewrite feed_snoc, len_app. change (len [val]) with 1. split.
  - apply feed_step_fed; [apply len_nonneg|done].
  - by apply (feed_step_scope (len vals) _ val (len_nonneg _)).
Qed.

(** X13: of a stream the goroutine copies to Scope exactly the values
    whose position [k] (counted from 0) has [k mod 201 < VisibleSize],
    nil values included; its flag [done] is never set. *)
Theorem feed_scope vals l :
  scope (lst (feed vals (spawn l))) =
    scope l ++
    (snd <$> filter (λ kv, Z.of_nat kv.1 `mod` 201 < size l)
               (imap (λ k val, (k, val)) vals)) ∧
  done (fd (feed vals (spawn l))) = false.
Proof.
  split; [|apply feed_done].
  induction vals as [|val vals IH] using rev_ind.
  - cbn. by rewrite app_nil_r.
  - rewrite feed_snoc.
    destruct (feed_done vals l) as [Hfed Hdone].
    destruct (feed_step_scope (len vals) _ val (len_nonneg _) Hfed Hdone)
      as [Hsc _].
    pose proof (feed_size vals (spawn l)) as Hz.
    rewrite Hsc, IH, Hz. cbn [lst spawn].
    rewrite imap_app, filter_app, fmap_app, <- app_assoc. f_equal. f_equal.
    cbn. rewrite Nat.add_0_r. unfold len. unfold filter. cbn.
    destruct (decide _); destruct (decide _); done.
Qed.

(** X14: for a stream of at most 201 values, Scope is extended by exactly
    the first VisibleSize values received (by all of them if there are
    fewer): the initial snapshot of the list. *)
Theorem feed_snapshot vals l :
  (length vals ≤ 201)%nat →
  scope (lst (feed vals (spawn l))) = scope l ++ take (Z.to_nat (size l)) vals.
Proof.
  induction vals as [|val vals IH] using rev_ind; intros Hlen.
  - cbn. by rewrite take_nil, app_nil_r.
  - rewrite length_app in Hlen. cbn in Hlen.
    rewrite feed_snoc.
    destruct (feed_done vals l) as [Hfed Hdone].
    destruct (feed_step_scope (len vals) _ val (len_nonneg _) Hfed Hdone)
      as [Hsc _].
    pose proof (feed_size vals (spawn l)) as Hz.
    rewrite Hsc, IH, Hz by lia. cbn [lst spawn].
    rewrite <- app_assoc. f_equal. rewrite take_app. f_equal.
    rewrite Z.mod_small by (unfold len; lia). unfold len.
    destruct (decide (Z.of_nat (length vals) < size l)).
    + replace (Z.to_nat (size l) - length vals)%nat
        with (S (Z.to_nat (size l) - length vals - 1)) by lia.
      cbn. by rewrite take_nil.
    + replace (Z.to_nat (size l) - length vals)%nat with 0%nat by lia. done.
Qed.

End ListFacts.

Section PromptFacts.

Context {V L : Type} {ops : ListOps V L}.
Context {term : Term} {utf8 : Utf8}.
Implicit Types (w : World V L) (p : Prompt L) (hooks : Hooks V L).

Lemma set_helpMode_id p : helpMode p = false → set_helpMode false p = p.
Proof. destruct p; cbn. by intros ->. Qed.

(** In Help mode [onKey] does nothing but leave it. *)
Lemma onKey_help hooks key w :
  helpMode (prompt w) = true →
  onKey hooks key w = Ret (None, update (set_helpMode false) w).
Proof. intros Hhelp. unfold onKey. by rewrite Hhelp. Qed.

(** Out of Help mode, a key that is no navigation key, not ['/'], not
    ['?'], pressed while the query is not being edited, reaches the
    key-binding table. *)
Lemma onKey_unmatched hooks key w :
  helpMode (prompt w) = false →
  is_navigation (prompt w) key = false →
  key ≠ 47 → key ≠ 63 →
  inputMode (prompt w) = false →
  onKey hooks key w =
    '(items, idx) ← list_Items (plist (prompt w));
    if idx =? NotFound then Ret (None, w)
    else lookup_binding (keyBindings hooks) key items idx w.
Proof.
  intros Hhelp Hnav H47 H63 Hmode. unfold onKey, is_navigation in *.
  rewrite Hhelp, Hmode.
  apply orb_false_elim in Hnav as [Hnav Hvim].
  apply orb_false_elim in Hnav as [Hnav ->].
  apply orb_false_elim in Hnav as [Hnav ->].
  apply orb_false_elim in Hnav as [-> ->].
  destruct (Z.eqb_spec key 47); [done|].
  destruct (Z.eqb_spec key 63); [done|].
  destruct (vim (prompt w)); cbn in *; [|done].
  apply orb_false_elim in Hvim as [Hvim ->].
  apply orb_false_elim in Hvim as [Hvim ->].
  apply orb_false_elim in Hvim as [-> ->]. done.
Qed.

(** C10: when a key that is not matched by navigation, by search-mode
    editing, by ['/'] or by ['?'] is pressed while [Items()] reports
    [NotFound], [onKey] returns nil whatever the key-binding table holds,
    leaving the trace of handler calls and the prompt as they were (it
    only leaves the help overlay if that was shown); and the main loop,
    unless the key is one it handles itself, redraws once and goes on. *)
Theorem unmatched_key_without_active_item hooks key w items :
  is_navigation (prompt w) key = false →
  key ≠ 47 → key ≠ 63 →
  inputMode (prompt w) = false →
  list_Items (plist (prompt w)) = Ret (items, NotFound) →
  onKey hooks key w = Ret (None, update (set_helpMode false) w) ∧
  (is_interrupt key = false → is_confirm key = false →
   loop_pass hooks (EvKey key None) w =
     Ret (Continue
            (mkWorld (set_hold false (set_helpMode false (prompt w)))
               (trace w ++
                [Rendered (ListFrame (itemsLabel (prompt w)) false
                             (input (prompt w)) items NotFound)])))).
Proof.
  intros Hnav H47 H63 Hmode Hitems.
  assert (∀ w', prompt w' = set_hold true (prompt w) ∨ w' = w →
            trace w' = trace w →
            onKey hooks key w' = Ret (None, update (set_helpMode false) w'))
    as HonKey.
  { intros w' Hw' Htr.
    assert (plist (prompt w') = plist (prompt w) ∧
            vim (prompt w') = vim (prompt w) ∧
            inputMode (prompt w') = inputMode (prompt w))
      as (Hl & Hv & Hm).
    { destruct Hw' as [-> | ->]; done. }
    destruct (helpMode (prompt w')) eqn:Hhelp.
    - by apply onKey_help.
    - rewrite onKey_unmatched; try done.
      + rewrite Hl, Hitems. cbn. unfold update.
        rewrite set_helpMode_id by done. by destruct w'.
      + unfold is_navigation in *. by rewrite Hv.
      + congruence. }
  split.
  - apply HonKey; auto.
  - intros Hint Hconf. unfold loop_pass, is_interrupt, is_confirm in *.
    rewrite Hint, Hconf.
    rewrite (HonKey (update (set_hold true) w)) by (cbn; auto). cbn.
    rewrite Hitems. cbn. by rewrite Hmode.
Qed.

(** C7 (as amended): when the confirm key is processed while [Items()]
    reports [NotFound], the keystroke is a no-op: the selection handler
    is not called, no error arises, the screen is redrawn and the loop
    goes on with the next event. *)
Theorem confirm_without_active_item hooks key w items :
  is_interrupt key = false → is_confirm key = true →
  list_Items (plist (prompt w)) = Ret (items, NotFound) →
  let w' :=
    mkWorld (set_hold false (prompt w))
      (trace w ++
       [Rendered
          (if helpMode (prompt w) then HelpFrame
           else ListFrame (itemsLabel (prompt w)) (inputMode (prompt w))
                  (input (prompt w)) items NotFound)]) in
  loop_pass hooks (EvKey key None) w = Ret (Continue w') ∧
  ∀ evs, loop_from hooks (EvKey key None :: evs) w = loop_from hooks evs w'.
Proof.
  intros Hint Hconf Hitems w'.
  assert (loop_pass hooks (EvKey key None) w = Ret (Continue w')) as Hpass.
  { unfold loop_pass, is_interrupt, is_confirm in *.
    rewrite Hint, Hconf. cbn. rewrite Hitems. cbn.
    unfold finish_pass, render. cbn.
    destruct (helpMode (prompt w)) eqn:Hhelp; [done|].
    by rewrite Hitems. }
  split; [done|]. intros evs. cbn [loop_from]. by rewrite Hpass.
Qed.

(** C8 (as amended): while the engine is in Help mode, a keystroke that
    reaches the key handler, that is any key but the hard-interrupt keys
    and the confirm keys, returns the engine to Normal mode and does
    nothing else: the pass through the loop is a redraw of that state.
    The hard-interrupt keys leave the loop, as in every mode. *)
Theorem help_mode_key hooks key w :
  helpMode (prompt w) = true →
  onKey hooks key w = Ret (None, update (set_helpMode false) w) ∧
  (is_interrupt key = false → is_confirm key = false →
   loop_pass hooks (EvKey key None) w =
     finish_pass (update (λ p, set_helpMode false (set_hold true p)) w)) ∧
  (is_interrupt key = true →
   loop_pass hooks (EvKey key None) w =
     Ret (Break None (update (set_hold true) w))).
Proof.
  intros Hhelp. split; [by apply onKey_help|]. split.
  - intros Hint Hconf. unfold loop_pass, is_interrupt, is_confirm in *.
    rewrite Hint, Hconf. rewrite onKey_help by done. done.
  - intros Hint. unfold loop_pass, is_interrupt in *. by rewrite Hint.
Qed.

(** ** The key-binding table *)

Lemma lookup_binding_none kbs key items idx w :
  Forall (λ kb, Key kb ≠ key) kbs →
  lookup_binding kbs key items idx w = Ret (None, w).
Proof.
  induction 1 as [|kb kbs Hkb _ IH]; [done|]. cbn.
  by destruct (Z.eqb_spec (Key kb) key).
Qed.

Lemma lookup_binding_first pre kb post key items idx w :
  Forall (λ kb, Key kb ≠ key) pre → Key kb = key →
  lookup_binding (pre ++ kb :: post) key items idx w =
    item ← index items idx;
    Ret (invoke (BindingCalled key item) (Handler kb) item w).
Proof.
  intros Hpre Hkb. induction Hpre as [|kb' pre Hkb' _ IH]; cbn.
  - by rewrite Hkb, Z.eqb_refl.
  - by destruct (Z.eqb_spec (Key kb') key).
Qed.

(** X15: the first binding of the table whose key is the key pressed
    wins: its handler is called once, with the active item, and what it
    returns is what [onKey] returns; bindings behind it are not looked
    at, whatever their key. *)
Theorem first_binding_wins hooks key w items idx item pre kb post :
  helpMode (prompt w) = false →
  is_navigation (prompt w) key = false →
  key ≠ 47 → key ≠ 63 →
  inputMode (prompt w) = false →
  list_Items (plist (prompt w)) = Ret (items, idx) →
  idx ≠ NotFound → index items idx = Ret item →
  keyBindings hooks = pre ++ kb :: post →
  Forall (λ kb, Key kb ≠ key) pre → Key kb = key →
  onKey hooks key w =
    Ret ((Handler kb item (prompt w)).2,
         mkWorld (Handler kb item (prompt w)).1
           (trace w ++ [BindingCalled key item])).
Proof.
  intros Hhelp Hnav H47 H63 Hmode Hitems Hidx Hitem Hkbs Hpre Hkb.
  rewrite onKey_unmatched by done. rewrite Hitems. cbn.
  destruct (Z.eqb_spec idx NotFound); [done|].
  rewrite Hkbs, lookup_binding_first by done. rewrite Hitem. cbn.
  unfold invoke. by destruct (Handler kb item (prompt w)).
Qed.

(** X16: a key that nothing is bound to, pressed in Normal mode, changes
    nothing and fails nothing: [onKey] returns nil and the same world,
    also when there is an active item; the pass through the loop is a
    redraw. *)
Theorem unbound_key_is_ignored hooks key w items idx :
  helpMode (prompt w) = false →
  is_navigation (prompt w) key = false →
  key ≠ 47 → key ≠ 63 →
  inputMode (prompt w) = false →
  list_Items (plist (prompt w)) = Ret (items, idx) →
  Forall (λ kb, Key kb ≠ key) (keyBindings hooks) →
  onKey hooks key w = Ret (None, w) ∧
  (is_interrupt key = false → is_confirm key = false →
   loop_pass hooks (EvKey key None) w =
     finish_pass (update (set_hold true) w)).
Proof.
  intros Hhelp Hnav H47 H63 Hmode Hitems Hkbs.
  assert (∀ w', plist (prompt w') = plist (prompt w) →
                vim (prompt w') = vim (prompt w) →
                helpMode (prompt w') = false →
                inputMode (prompt w') = false →
                onKey hooks key w' = Ret (None, w')) as HonKey.
  { intros w' Hl Hv Hh Hm. rewrite onKey_unmatched; try done.
    - rewrite Hl, Hitems. cbn. destruct (idx =? NotFound); [done|].
      by apply lookup_binding_none.
    - unfold is_navigation in *. by rewrite Hv. }
  split; [by apply HonKey|].
  intros Hint Hconf. unfold loop_pass, is_interrupt, is_confirm in *.
  rewrite Hint, Hconf. by rewrite HonKey.
Qed.

Lemma lookup_binding_snoc kbs b key items idx w :
  Exists (λ kb, Key kb = key) kbs ∨ Key b ≠ key →
  lookup_binding (kbs ++ [b]) key items idx w =
    lookup_binding kbs key items idx w.
Proof.
  intros Hcase. induction kbs as [|kb kbs IH]; cbn.
  - destruct Hcase as [Hex|Hne]; [by apply Exists_nil in Hex|].
    by destruct (Z.eqb_spec (Key b) key).
  - destruct (Z.eqb_spec (Key kb) key) as [Heq|Hne]; [done|].
    apply IH. destruct Hcase as [Hex|?]; [|by right].
    apply Exists_cons in Hex as [?|?]; [done|by left].
Qed.

(** X17: [AddKeyBinding] never fails, and a binding added for a key that
    is bound already is never used: every key that was bound, and every
    key other than the new binding's, is handled as before. *)
Theorem AddKeyBinding_shadowed b hooks key w :
  (AddKeyBinding b hooks).2 = None ∧
  (Exists (λ kb, Key kb = key) (keyBindings hooks) ∨ Key b ≠ key →
   onKey (AddKeyBinding b hooks).1 key w = onKey hooks key w).
Proof.
  split; [done|]. intros Hcase. unfold onKey, AddKeyBinding.
  cbn [fst keyBindings].
  repeat (match goal with
          | |- (if ?c then _ else _) = (if ?c then _ else _) => destruct c
          end; try done).
  destruct (list_Items (plist (prompt w))) as [[items idx]| |]; cbn; try done.
  destruct (idx =? NotFound); [done|]. by apply lookup_binding_snoc.
Qed.

(** ** Runs of the main loop *)


(** X19: the three ways out of the loop that involve no handler.  A stop
    signal and a hard-interrupt key make the loop return nil after it has
    cleared the screen; an input event that carries an error makes it
    return that error at once, without clearing the screen.  In none of
    them is anything drawn or any handler called. *)
Theorem loop_leaves hooks evs w :
  loop_from hooks (EvQuit :: evs) w
    = Ret (Returned None (mkWorld (prompt w) (trace w ++ [ScreenCleared]))) ∧
  (∀ key, is_interrupt key = true →
     loop_from hooks (EvKey key None :: evs) w
       = Ret (Returned None (mkWorld (set_hold true (prompt w))
                               (trace w ++ [ScreenCleared])))) ∧
  (∀ key err,
     loop_from hooks (EvKey key (Some err) :: evs) w
       = Ret (Returned (Some err) (mkWorld (set_hold true (prompt w)) (trace w)))).
Proof.
  split; [done|]. split.
  - intros key Hint. cbn. unfold is_interrupt in Hint. by rewrite Hint.
  - done.
Qed.

Lemma finish_pass_Continue w res :
  finish_pass w = Ret res →
  ∃ w1, render w = Ret w1 ∧ res = Continue (update (set_hold false) w1).
Proof.
  unfold finish_pass. destruct (render w) as [w1| |]; cbn; try done.
  intros [= <-]. by eexists.
Qed.

Lemma render_prompt w w1 :
  render w = Ret w1 → prompt w1 = prompt w ∧ ∃ f, trace w1 = trace w ++ [Rendered f].
Proof.
  unfold render. destruct (helpMode (prompt w)).
  - intros [= <-]. cbn. eauto.
  - destruct (list_Items (plist (prompt w))) as [[items idx]| |]; cbn; try done.
    destruct (idx =? NotFound); cbn.
    + intros [= <-]. cbn. eauto.
    + destruct (index items idx); cbn; try done. intros [= <-]. cbn. eauto.
Qed.

Lemma lookup_binding_quiet kbs key items idx w err w' :
  Forall (λ kb, ∀ item p, (Handler kb item p).2 = None) kbs →
  lookup_binding kbs key items idx w = Ret (err, w') → err = None.
Proof.
  induction 1 as [|kb kbs Hkb _ IH]; cbn; [by intros [= <- _]|].
  destruct (Key kb =? key); [|done].
  destruct (index items idx) as [item| |]; cbn; try done.
  unfold invoke. specialize (Hkb item (prompt w)).
  destruct (Handler kb item (prompt w)) as [p e]. cbn in Hkb. subst e.
  by intros [= <- _].
Qed.

Lemma onKey_quiet hooks key w err w' :
  quiet hooks → onKey hooks key w = Ret (err, w') → err = None.
Proof.
  intros [_ Hkbs]. unfold onKey.
  repeat (match goal with
          | |- (if ?c then _ else _) = _ → _ => destruct c
          end; try by intros [= <- _]).
  - match goal with
    | |- (?m ≫= _) = _ → _ => destruct m as [input'| |]; cbn; try done
    end.
    destruct (list_Search input' (plist (prompt w))); cbn; try done.
    by intros [= <- _].
  - destruct (list_Items (plist (prompt w))) as [[items idx]| |]; cbn; try done.
    destruct (idx =? NotFound); [by intros [= <- _]|].
    by apply lookup_binding_quiet.
Qed.

Lemma loop_pass_quiet hooks ev w res :
  quiet hooks → (∀ key e, ev ≠ EvKey key (Some e)) →
  loop_pass hooks ev w = Ret res →
  match res with
  | Continue _ => True
  | Break err _ => err = None
  | Return _ _ => False
  end.
Proof.
  intros Hquiet Hev. destruct ev as [|key [e|]|]; cbn.
  - by intros [= <-].
  - by destruct (Hev key e).
  - destruct ((key =? KeyCtrlC) || (key =? KeyCtrlD)); [by intros [= <-]|].
    destruct ((key =? Enter) || (key =? NewLine)).
    + destruct (list_Items _) as [[items idx]| |]; cbn; try done.
      destruct (idx =? NotFound).
      * intros Hfin. by apply finish_pass_Continue in Hfin as (? & _ & ->).
      * destruct (index items idx) as [item| |]; cbn; try done.
        unfold invoke. destruct Hquiet as [Hsel _].
        specialize (Hsel item (set_hold true (prompt w))).
        destruct (selectionHandler hooks item _) as [p e]. cbn in Hsel. subst e.
        intros Hfin. by apply finish_pass_Continue in Hfin as (? & _ & ->).
    + destruct (onKey hooks key _) as [[err w']| |] eqn:HonKey; cbn; try done.
      apply onKey_quiet in HonKey as ->; [|done].
      intros Hfin. by apply finish_pass_Continue in Hfin as (? & _ & ->).
  - destruct (render w); cbn; try done. by intros [= <-].
Qed.

(** X20: the loop returns an error only if an input event carried one or
    a handler failed: when no selection handler and no key binding ever
    fails and no event carries an error, whatever [mainloop] returns is
    nil. *)
Theorem quiet_loop_returns_nil hooks evs w err w' :
  quiet hooks →
  Forall (λ ev, ∀ key e, ev ≠ EvKey key (Some e)) evs →
  mainloop hooks evs w = Ret (Returned err w') → err = None.
Proof.
  intros Hquiet Hevs. unfold mainloop.
  destruct (render w) as [w0| |]; cbn; try done. clear w. revert w0.
  induction Hevs as [|ev evs Hev _ IH]; intros w; cbn; [done|].
  destruct (loop_pass hooks ev w) as [res| |] eqn:Hpass; cbn; try done.
  apply loop_pass_quiet in Hpass; try done.
  destruct res as [w1|e w1|e w1]; [apply IH| |done].
  subst e. by intros [= <- _].
Qed.

(** X21: whenever a pass on a key event lets the loop go on, the pass has
    ended with a redraw and with the hold flag released; a pass on a
    window resize only redraws and leaves the prompt as it is. *)
Theorem pass_ends_with_redraw hooks w w' :
  (∀ key, loop_pass hooks (EvKey key None) w = Ret (Continue w') →
     hold (prompt w') = false ∧ ∃ f, last (trace w') = Some (Rendered f)) ∧
  (loop_pass hooks EvWinch w = Ret (Continue w') →
     prompt w' = prompt w ∧ ∃ f, trace w' = trace w ++ [Rendered f]).
Proof.
  assert (∀ w0, finish_pass w0 = Ret (Continue w') →
            hold (prompt w') = false ∧ ∃ f, last (trace w') = Some (Rendered f))
    as Hfin.
  { intros w0 H0. apply finish_pass_Continue in H0 as (w1 & Hr & [= ->]).
    apply render_prompt in Hr as [_ [f Hf]]. cbn. split; [done|].
    exists f. rewrite Hf. apply last_snoc. }
  split.
  - intros key. cbn.
    destruct ((key =? KeyCtrlC) || (key =? KeyCtrlD)); [done|].
    destruct ((key =? Enter) || (key =? NewLine)).
    + destruct (list_Items _) as [[items idx]| |]; cbn; try done.
      destruct (idx =? NotFound); [apply Hfin|].
      destruct (index items idx) as [item| |]; cbn; try done.
      destruct (invoke _ _ _ _) as [[e|] w1]; [done|apply Hfin].
    + destruct (onKey hooks key _) as [[[e|] w1]| |]; cbn; try done.
      apply Hfin.
  - cbn. destruct (render w) as [w1| |] eqn:Hr; cbn; try done.
    intros [= <-]. by apply render_prompt.
Qed.

(** X22: ['/'] toggles search mode and nothing else: the query and the
    list, with its filter, stay as they are, and a second ['/'] brings
    the prompt back to where it was. *)
Theorem search_mode_toggle hooks w :
  helpMode (prompt w) = false →
  is_navigation (prompt w) 47 = false →
  let w1 := update (set_inputMode (negb (inputMode (prompt w)))) w in
  onKey hooks 47 w = Ret (None, w1) ∧
  plist (prompt w1) = plist (prompt w) ∧ input (prompt w1) = input (prompt w) ∧
  onKey hooks 47 w1 = Ret (None, w).
Proof.
  intros Hhelp Hnav w1.
  assert (∀ w0, helpMode (prompt w0) = false →
                (47 =? ArrowUp) || (47 =? ArrowDown) ||
                (47 =? ArrowLeft) || (47 =? ArrowRight) = false →
                onKey hooks 47 w0
                = Ret (None, update (set_inputMode (negb (inputMode (prompt w0)))) w0))
    as Hslash.
  { intros w0 Hh Harrows. unfold onKey. rewrite Hh.
    apply orb_false_elim in Harrows as [Harrows ->].
    apply orb_false_elim in Harrows as [Harrows ->].
    apply orb_false_elim in Harrows as [-> ->]. done. }
  unfold is_navigation in Hnav. apply orb_false_elim in Hnav as [Harrows _].
  split; [by apply Hslash|]. split; [done|]. split; [done|].
  rewrite Hslash by done. f_equal. f_equal.
  destruct w as [p tr]. unfold w1, update. cbn. f_equal.
  destruct p; cbn. by rewrite negb_involutive.
Qed.

(** X23: in Normal mode ['?'] shows the help overlay and nothing else,
    and whatever key comes next to the key handler brings the prompt back
    to exactly where it was before the ['?']. *)
Theorem help_round_trip hooks key w :
  helpMode (prompt w) = false →
  inputMode (prompt w) = false →
  is_navigation (prompt w) 63 = false →
  onKey hooks 63 w = Ret (None, update (set_helpMode true) w) ∧
  onKey hooks key (update (set_helpMode true) w) = Ret (None, w).
Proof.
  intros Hhelp Hmode Hnav. split.
  - unfold onKey, is_navigation in *. rewrite Hhelp, Hmode.
    apply orb_false_elim in Hnav as [Hnav Hvim].
    apply orb_false_elim in Hnav as [Hnav ->].
    apply orb_false_elim in Hnav as [Hnav ->].
    apply orb_false_elim in Hnav as [-> ->]. cbn. done.
  - rewrite onKey_help by done. f_equal. f_equal.
    destruct w as [p tr]. unfold update. cbn. f_equal.
    destruct p; cbn in *. by subst.
Qed.

End PromptFacts.

Section EngineFacts.

Context {A : Type} `{Countable A}.
Context (Sprint : option A → string) {matcher : Fuzzy}.
Context {term : Term} {utf8 : Utf8}.
Implicit Types (w : World (option A) (AsyncList A)) (p : Prompt (AsyncList A)).
Implicit Types (hooks : Hooks (option A) (AsyncList A)).

#[local] Existing Instance AsyncList_ops.

(** X24: on a list that satisfies the invariants, [Selection()] returns
    the Scope entry under the cursor, and fails with ["item not found"]
    exactly when Scope is empty. *)
Theorem Selection_spec p :
  Inv (plist p) → fits (plist p) →
  (scope (plist p) = [] →
   Selection (ops:=AsyncList_ops Sprint) p = Ret (inl "item not found"%string)) ∧
  (scope (plist p) ≠ [] →
   ∃ v, scope (plist p) !! Z.to_nat (cursor (plist p)) = Some v ∧
        Selection (ops:=AsyncList_ops Sprint) p = Ret (inr v)).
Proof.
  intros Hinv Hfits. unfold Selection. cbn [list_Items AsyncList_ops].
  rewrite Items_Inv by done. cbn. split.
  - intros Hnil. by destruct (decide _).
  - intros Hne. destruct (decide _); [done|].
    destruct (window_active _ Hinv Hne) as (v & Hv & Hidx).
    exists v. split; [done|].
    pose proof (proj1 (Inv_arith _) Hinv).
    destruct (Z.eqb_spec (cursor (plist p) - start (plist p)) NotFound) as [E|_].
    { unfold NotFound in E. lia. }
    by rewrite Hidx.
Qed.

(** X25: on a list that satisfies the invariants and has a non-empty
    Scope, the confirm key calls the selection handler exactly once, with
    the Scope entry under the cursor; if the handler fails, the loop is
    left with its error and nothing is drawn; if not, the pass ends with
    a redraw. *)
Theorem confirm_dispatch hooks key w :
  Inv (plist (prompt w)) → fits (plist (prompt w)) →
  scope (plist (prompt w)) ≠ [] →
  is_interrupt key = false → is_confirm key = true →
  ∃ v, scope (plist (prompt w)) !! Z.to_nat (cursor (plist (prompt w))) = Some v ∧
       loop_pass (ops:=AsyncList_ops Sprint) hooks (EvKey key None) w =
         let '(p', err) := selectionHandler hooks v (set_hold true (prompt w)) in
         let w' := mkWorld p' (trace w ++ [SelectionCalled v]) in
         match err with
         | Some _ => Ret (Break err w')
         | None => finish_pass (ops:=AsyncList_ops Sprint) w'
         end.
Proof.
  intros Hinv Hfits Hne Hint Hconf.
  destruct (window_active _ Hinv Hne) as (v & Hv & Hidx).
  exists v. split; [done|].
  unfold loop_pass, is_interrupt, is_confirm in *. rewrite Hint, Hconf.
  cbn [prompt update plist set_hold list_Items AsyncList_ops].
  rewrite Items_Inv by done. cbn. destruct (decide _); [done|].
  pose proof (proj1 (Inv_arith _) Hinv).
  destruct (Z.eqb_spec (cursor (plist (prompt w)) - start (plist (prompt w)))
              NotFound) as [E|_].
  { unfold NotFound in E. lia. }
  rewrite Hidx. cbn. unfold invoke. cbn.
  by destruct (selectionHandler hooks v _) as [p' [e|]].
Qed.



End EngineFacts.

Section RendererFacts.

Context {V : Type} (Sprint : V → string) {printer : Printer}.

Lemma highlight_spec matches : ∀ cells,
  Forall (λ m, 0 ≤ m) matches →
  len cells ≤ GoInt.int_max →
  ∃ cells',
    highlight matches cells = Ret cells' ∧
    length cells' = length cells ∧
    ∀ i, cells' !! i =
         (λ c, mkCell (Ch c) (Attr c ++ replicate (hits i matches) Underline))
           <$> cells !! i.
Proof.
  induction matches as [|m rest IH]; intros cells Hpos Hmax.
  - exists cells. repeat split. intros i. cbn.
    destruct (cells !! i) as [[ch at_]|]; cbn; [|done]. by rewrite app_nil_r.
  - apply Forall_cons in Hpos as [Hm Hpos]. cbn [highlight].
    assert (len cells ⊟ 1 = len cells - 1) as ->.
    { apply GoInt_wrap_small. pose proof (len_nonneg cells).
      unfold GoInt.int_min, GoInt.int_max in *. lia. }
    destruct (Z.ltb_spec (len cells - 1) m) as [Hout|Hin].
    + destruct (IH cells Hpos Hmax) as (cells' & Hrun & Hlen & Hat).
      exists cells'. repeat split; try done. intros i. rewrite Hat.
      destruct (cells !! i) as [c|] eqn:Hc; [|done]. cbn.
      apply lookup_lt_Some in Hc. unfold hits. cbn.
      unfold filter at 2. cbn. destruct (decide (m = Z.of_nat i)); [|done].
      unfold len in Hout. lia.
    + destruct (lookup_lt_is_Some_2 cells (Z.to_nat m)) as [cell Hcell].
      { unfold len in Hin. lia. }
      rewrite (index_lookup _ _ cell) by done. cbn.
      set (cells1 := <[Z.to_nat m := _]> cells).
      destruct (IH cells1) as (cells' & Hrun & Hlen & Hat); [done| |].
      { unfold cells1, len. rewrite length_insert. exact Hmax. }
      exists cells'. split; [done|]. split.
      { rewrite Hlen. unfold cells1. apply length_insert. }
      intros i. rewrite Hat. unfold cells1, hits.
      destruct (decide (Z.to_nat m = i)) as [<-|Hne].
      * rewrite list_lookup_insert_eq by (by eapply lookup_lt_Some).
        rewrite Hcell. cbn. unfold filter at 2. cbn.
        destruct (decide _); [|lia]. cbn.
        by rewrite <- app_assoc.
      * rewrite list_lookup_insert_ne by done.
        destruct (cells !! i) as [c|]; [|done]. cbn.
        unfold filter at 2. cbn. destruct (decide _); [lia|done].
Qed.

Lemma highlight_panics matches : ∀ cells,
  Exists (λ m, m < 0) matches →
  len cells ≤ GoInt.int_max →
  highlight matches cells = Panic.
Proof.
  induction matches as [|m rest IH]; intros cells Hneg Hmax.
  - by apply Exists_nil in Hneg.
  - cbn [highlight].
    assert (len cells ⊟ 1 = len cells - 1) as ->.
    { apply GoInt_wrap_small. pose proof (len_nonneg cells).
      unfold GoInt.int_min, GoInt.int_max in *. lia. }
    pose proof (len_nonneg cells) as Hlen.
    destruct (Z.ltb_spec (len cells - 1) m) as [Hout|Hin].
    + apply IH; [|done]. apply Exists_cons in Hneg as [?|?]; [lia|done].
    + destruct (decide (m < 0)) as [Hm|Hm].
      * unfold index. by destruct (decide (0 ≤ m)); [lia|].
      * destruct (lookup_lt_is_Some_2 cells (Z.to_nat m)) as [cell Hcell].
        { unfold len in Hin. lia. }
        rewrite (index_lookup _ _ cell) by (done || lia). cbn.
        apply IH.
        -- apply Exists_cons in Hneg as [?|?]; [lia|done].
        -- unfold len. by rewrite length_insert.
Qed.

(** X27: for an item with match offsets that are all non-negative,
    [itemText] returns the marker followed by one cell per rune of the
    item's text, in order; the cell of row [i] is underlined once for
    every occurrence of [i] among the offsets and carries no other
    attribute, and offsets beyond the text are ignored. *)
Theorem itemText_highlights item matches selected :
  matches ≠ [] → Forall (λ m, 0 ≤ m) matches →
  len (runes (Sprint item)) ≤ GoInt.int_max →
  ∃ body,
    itemText Sprint item matches selected =
      Ret ((if selected then Cprint "> " [FgCyan] else Cprint "  " [FgWhite])
           ++ body) ∧
    Ch <$> body = runes (Sprint item) ∧
    ∀ i cell, body !! i = Some cell →
              Attr cell = replicate (hits i matches) Underline.
Proof.
  intros Hne Hpos Hmax. unfold itemText.
  destruct (Z.eqb_spec (len matches) 0) as [E|_].
  { apply len_nil_iff in E. done. }
  set (cells := (λ r, mkCell r []) <$> runes (Sprint item)).
  destruct (highlight_spec matches cells Hpos) as (body & Hrun & Hlen & Hat).
  { unfold cells, len. by rewrite length_fmap. }
  exists body. rewrite Hrun. cbn. split; [by destruct selected|]. split.
  - apply list_eq. intros i. rewrite list_lookup_fmap, Hat.
    unfold cells. rewrite list_lookup_fmap.
    by destruct (runes (Sprint item) !! i).
  - intros i cell Hcell. rewrite Hat in Hcell. unfold cells in Hcell.
    rewrite list_lookup_fmap in Hcell.
    destruct (runes (Sprint item) !! i); cbn in Hcell; [|done].
    by simplify_eq.
Qed.

(** X28: without match offsets [itemText] prints the text as it is,
    behind the marker; with a negative offset among them it panics, on
    [highlighted[m]]. *)
Theorem itemText_edges item matches selected :
  (matches = [] →
   itemText Sprint item matches selected =
     Ret ((if selected then Cprint "> " [FgCyan] else Cprint "  " [FgWhite])
          ++ Cprint (Sprint item) [])) ∧
  (Exists (λ m, m < 0) matches →
   len (runes (Sprint item)) ≤ GoInt.int_max →
   itemText Sprint item matches selected = Panic).
Proof.
  split.
  - intros ->. unfold itemText. cbn. by destruct selected.
  - intros Hneg Hmax. unfold itemText.
    destruct (Z.eqb_spec (len matches) 0) as [E|_].
    { apply len_nil_iff in E. subst. by apply Exists_nil in Hneg. }
    rewrite highlight_panics; [done|done|].
    unfold len. by rewrite length_fmap.
Qed.

End RendererFacts.

Section ControlsFacts.

Context {V L : Type}.
Implicit Types (kbs : list (KeyBinding V L)).

Lemma fold_add_control kbs : ∀ (controls : gmap string string) d,
  fold_left add_control kbs controls !! d =
    match last (filter (λ kb, Display kb = d) kbs) with
    | Some kb => Some (Desc kb)
    | None => controls !! d
    end.
Proof.
  induction kbs as [|kb kbs IH] using rev_ind; intros controls d; [done|].
  rewrite fold_left_app, filter_app, filter_cons, filter_nil.
  cbn [fold_left]. unfold add_control at 1.
  destruct (decide (Display kb = d)) as [<-|Hne].
  - by rewrite last_snoc, lookup_insert_eq.
  - rewrite app_nil_r, lookup_insert_ne by done. apply IH.
Qed.

(** X29: the controls shown by the help overlay map every display label
    of a key binding to the description of the last binding with that
    label; the two built-in entries (navigation and ["/"]) are present
    unless a binding's label replaces them, and nothing else is. *)
Theorem allControls_lookup (hooks : Hooks V L) d :
  allControls hooks !! d =
    match last (filter (λ kb, Display kb = d) (keyBindings hooks)) with
    | Some kb => Some (Desc kb)
    | None =>
        if decide (d = "/"%string) then Some "toggle search"%string
        else if decide (d = "← ↓ ↑ → (h,j,k,l)"%string)
             then Some "navigation"%string
             else None
    end.
Proof.
  unfold allControls. rewrite fold_add_control.
  destruct (last _); [done|].
  destruct (decide (d = "/"%string)) as [->|Hne].
  - by rewrite lookup_insert_eq.
  - rewrite lookup_insert_ne by done.
    destruct (decide _) as [->|Hne'].
    + by rewrite lookup_insert_eq.
    + by rewrite lookup_insert_ne.
Qed.

End ControlsFacts.

(** * The model at work *)

Import Sample.

(** ** Where the invariants break *)

(** C1 (counterexample): on a list of three files with one visible row,
    [CancelSearch] (Scope is all of Items), [SetCursor(2)] and
    [SetStart(0)] leave Cursor 2 and Start 0: the cursor is two rows below
    a window of one row. *)
Lemma SetStart_leaves_cursor_outside_window :
  ∃ l',
    run Sprint [CCancelSearch; CSetCursor 2; CSetStart 0] (file_list 1) = Ret l' ∧
    cursor l' = 2 ∧ start l' = 0 ∧ size l' = 1 ∧
    ¬ (cursor l' - start l' < size l') ∧ ¬ Inv l'.
Proof.
  eexists. split; [vm_compute; reflexivity|]. cbn.
  repeat split; try lia. intros (_ & _ & _ & Hwin). cbn in Hwin. lia.
Qed.

(** On an empty Scope [PageDown()] sets Cursor to [len(Scope) - 1], that
    is to -1; a [Prev()] then takes Start to -1, and [Items()] panics on
    [l.scope[-1]]. *)
Lemma PageDown_on_empty_scope :
  ∃ l1,
    Search Sprint "zz" (file_list 3) = Ret l1 ∧ scope l1 = [] ∧
    cursor (PageDown l1) = -1 ∧ start (PageDown l1) = 0 ∧
    start (Prev (PageDown l1)) = -1 ∧
    Items (Prev (PageDown l1)) = Panic.
Proof.
  eexists. split; [vm_compute; reflexivity|]. cbn. repeat split.
Qed.

(** C2 (counterexample): in that state Scope holds three entries and
    [Items()] returns the first one with [NotFound] for the active index. *)
Lemma Items_NotFound_on_nonempty_scope :
  ∃ l',
    run Sprint [CCancelSearch; CSetCursor 2; CSetStart 0] (file_list 1) = Ret l' ∧
    scope l' = files ∧ scope l' ≠ [] ∧
    Items l' = Ret ([Some "a.txt"%string], NotFound).
Proof.
  eexists. split; [vm_compute; reflexivity|]. cbn. repeat split; try done.
Qed.

(** C3 (counterexample): on the list [NewAsyncList] returns, whose Scope
    is empty, [Index()] is 0 and not [NotFound]. *)
Lemma Index_of_empty_scope_is_zero :
  ∃ l0 : AsyncList string,
    NewAsyncList live_chan 5 = inr l0 ∧ scope l0 = [] ∧
    Index l0 = Ret 0 ∧ Index l0 ≠ Ret NotFound.
Proof. eexists. split; [reflexivity|]. cbn. repeat split; done. Qed.

(** C4 (the code at the failing input): after a stream of 500 items with
    VisibleSize 10, Scope holds 30 entries: the first 10 items, and the 10
    items from the 202nd and from the 403rd on. *)
Theorem stream_of_500_scope :
  let l := lst (stream_list (numbers 500) 10) in
  scope l =
    take 10 (numbers 500) ++ take 10 (drop 201 (numbers 500)) ++
    take 10 (drop 402 (numbers 500)) ∧
  length (scope l) = 30%nat ∧
  items l = numbers 500 ∧
  size l = 10.
Proof. vm_compute. repeat split; reflexivity. Qed.

(** C5 (counterexample): a stream of 200 items yields one notification in
    all, the one at the close; none is sent while the items are drained. *)
Lemma no_update_within_200_items :
  updates (stream_list (numbers 200) 10) = 1%nat ∧
  updates (feed (numbers 200) (spawn (mkAsyncList [] [] ∅ 0 10 0 ""))) = 0%nat ∧
  (200 / 200)%nat = 1%nat.
Proof. vm_compute. repeat split; reflexivity. Qed.

(** C6 (counterexample): after [Search("ab")] has recorded the offsets of
    ["ab.go"], [CancelSearch()] still holds them in MatchIndex. *)
Lemma CancelSearch_keeps_matches :
  ∃ l1,
    Search Sprint "ab" (file_list 3) = Ret l1 ∧
    scope (CancelSearch l1) = files ∧
    matches (CancelSearch l1) !! Some "ab.go"%string = Some [0; 1] ∧
    matches (CancelSearch l1) ≠ ∅.
Proof.
  eexists. split; [vm_compute; reflexivity|].
  split; [reflexivity|].
  split.
  - vm_compute. reflexivity.
  - intros Hempty. apply (f_equal (λ m, m !! Some "ab.go"%string)) in Hempty.
    rewrite lookup_empty in Hempty. vm_compute in Hempty. done.
Qed.

(** C9 (counterexample): with ten items, four rows, Start 5 and Cursor 8,
    [PageDown()] moves Start to 6, which is not the previous Cursor, and
    leaves Cursor at 8: it does not follow Start. *)
Lemma PageDown_cursor_beyond_new_start :
  let l := SetCursor 8 (CancelSearch (lst (stream_list (numbers 10) 4))) in
  len (scope l) = 10 ∧ size l = 4 ∧ start l = 5 ∧ cursor l = 8 ∧
  start (PageDown l) = 6 ∧ cursor (PageDown l) = 8 ∧
  start (PageDown l) ≠ cursor l ∧ cursor (PageDown l) ≠ start (PageDown l).
Proof. vm_compute. repeat split; congruence. Qed.

(** C7 (counterexample): with an empty list the confirm key does not end
    the loop: the pass redraws and goes on, the loop is left waiting for
    the next event, and a later stop signal makes it return nil. *)
Lemma confirm_on_empty_list_goes_on :
  let l0 := lst (stream_list [] 3) in
  Items l0 = Ret ([], NotFound) ∧
  (∃ w', loop_pass hooks (EvKey Enter None) (world l0 false) = Ret (Continue w')) ∧
  (∃ w', mainloop hooks [EvKey Enter None] (world l0 false) = Ret (Waiting w')) ∧
  (∃ w', mainloop hooks [EvKey Enter None; EvQuit] (world l0 false)
         = Ret (Returned None w')).
Proof.
  cbn zeta. split; [reflexivity|].
  repeat split; eexists; vm_compute; reflexivity.
Qed.

(** C8 (counterexample): in Help mode Ctrl-C leaves the loop and the
    confirm key calls the selection handler (which fails here and ends the
    loop); neither returns the engine to Normal mode. *)
Lemma help_mode_interrupt_and_confirm :
  (∃ w1, loop_pass hooks (EvKey KeyCtrlC None) (world (file_list 3) true)
         = Ret (Break None w1) ∧ helpMode (prompt w1) = true) ∧
  (∃ w2, loop_pass hooks (EvKey Enter None) (world (file_list 3) true)
         = Ret (Break (Some "handler failed"%string) w2) ∧
         trace w2 = [SelectionCalled (Some "a.txt"%string)] ∧
         helpMode (prompt w2) = true).
Proof.
  split; eexists; (split; [vm_compute; reflexivity|]); cbn; repeat split.
Qed.

(** ** The theorems at concrete inputs *)

Local Ltac evaluate :=
  vm_compute; repeat split; intros; first [reflexivity | discriminate | done].

Lemma reachable_invariant_witness :
  let s0 : population string := spawn (mkAsyncList [] [] ∅ 0 2 0 "") in
  let s1 := feed_step (feed_step (feed_step s0 (Some "a.txt")) (Some "b.txt"))
              (Some "ab.go") in
  let s2 := with_lst (CancelSearch (lst s1)) s1 in
  let s3 := with_lst (SetCursor 2 (lst s2)) s2 in
  Inv (lst s3) ∧ Inv (SetStart 1 (SetCursor 2 (file_list 3))).
Proof.
  cbn zeta. split.
  - apply (proj1 (reachable_invariant Sprint)).
    eapply (reach_call _ _ (CSetCursor 2)); [|evaluate|reflexivity].
    eapply (reach_call _ _ CCancelSearch); [|exact I|reflexivity].
    do 3 eapply reach_feed.
    eapply (reach_new _ 2); [evaluate|reflexivity].
  - apply (proj2 (reachable_invariant Sprint)); evaluate.
Defined.

Lemma Items_window_witness :
  Inv (file_list 2) ∧
  ∃ window active,
    Items (file_list 2) = Ret (window, active) ∧
    window = take (Z.to_nat (size (file_list 2)))
               (drop (Z.to_nat (start (file_list 2))) (scope (file_list 2))) ∧
    len window ≤ size (file_list 2) ∧
    active = (if decide (start (file_list 2) ≤ cursor (file_list 2)
                         < start (file_list 2) + len window)
              then cursor (file_list 2) - start (file_list 2)
              else NotFound) ∧
    (Inv (file_list 2) → (active = NotFound ↔ scope (file_list 2) = [])).
Proof.
  split; [evaluate|].
  apply (Items_window (file_list 2)); evaluate.
Defined.

Lemma Index_spec_witness :
  ∃ i, Index (file_list 3) = Ret i ∧
       (Some "a.txt"%string ∈ items (file_list 3) →
        0 ≤ i ∧ items (file_list 3) !! Z.to_nat i = Some (Some "a.txt"%string) ∧
        ∀ j : nat, (j < Z.to_nat i)%nat →
                   items (file_list 3) !! j ≠ Some (Some "a.txt"%string)) ∧
       (Some "a.txt"%string ∉ items (file_list 3) → i = NotFound).
Proof.
  apply (proj2 (Index_spec (file_list 3)) (Some "a.txt"%string)); evaluate.
Defined.

Lemma CancelSearch_restores_witness :
  trim "  " = ""%string ∧
  ∃ l', Search Sprint "  " (file_list 3) = Ret l' ∧
        scope l' = items (file_list 3) ∧ items l' = items (file_list 3) ∧
        cursor l' = 0 ∧ start l' = 0 ∧ find l' = ""%string.
Proof.
  split; [reflexivity|].
  apply (proj2 (CancelSearch_restores Sprint (file_list 3))). reflexivity.
Defined.

Lemma PageDown_spec_witness :
  let l := SetCursor 8 (CancelSearch (lst (stream_list (numbers 10) 4))) in
  start (PageDown l) =
    (if len (scope l) <? size l then 0
     else Z.min (start l + size l) (len (scope l) - size l)) ∧
  cursor (PageDown l) =
    (if start (PageDown l) =? cursor l then len (scope l) - 1
     else if cursor l <? start (PageDown l) then start (PageDown l)
     else cursor l) ∧
  scope (PageDown l) = scope l ∧ items (PageDown l) = items l ∧
  size (PageDown l) = size l ∧ matches (PageDown l) = matches l.
Proof.
  cbn zeta.
  apply (PageDown_spec
           (SetCursor 8 (CancelSearch (lst (stream_list (numbers 10) 4)))));
    evaluate.
Defined.

Lemma unmatched_key_without_active_item_witness :
  let w := world (lst (stream_list [] 3)) false in
  onKey hooks 120 w = Ret (None, update (set_helpMode false) w) ∧
  loop_pass hooks (EvKey 120 None) w =
    Ret (Continue
           (mkWorld (set_hold false (set_helpMode false (prompt w)))
              (trace w ++
               [Rendered (ListFrame (itemsLabel (prompt w)) false
                            (input (prompt w)) [] NotFound)]))).
Proof.
  cbn zeta.
  destruct (unmatched_key_without_active_item hooks 120
              (world (lst (stream_list [] 3)) false) [])
    as [HonKey Hpass]; try reflexivity; try (intros [=]).
  split; [exact HonKey|]. apply Hpass; reflexivity.
Defined.

Lemma confirm_without_active_item_witness :
  let w := world (lst (stream_list [] 3)) false in
  let w' :=
    mkWorld (set_hold false (prompt w))
      (trace w ++ [Rendered (ListFrame "Files" false "" [] NotFound)]) in
  loop_pass hooks (EvKey Enter None) w = Ret (Continue w') ∧
  ∀ evs, loop_from hooks (EvKey Enter None :: evs) w = loop_from hooks evs w'.
Proof.
  cbn zeta.
  apply (confirm_without_active_item hooks Enter
           (world (lst (stream_list [] 3)) false) []); reflexivity.
Defined.

Lemma help_mode_key_witness :
  let w := world (file_list 3) true in
  onKey hooks 120 w = Ret (None, update (set_helpMode false) w) ∧
  loop_pass hooks (EvKey 120 None) w =
    finish_pass (update (λ p, set_helpMode false (set_hold true p)) w) ∧
  loop_pass hooks (EvKey KeyCtrlC None) w =
    Ret (Break None (update (set_hold true) w)).
Proof.
  cbn zeta.
  destruct (help_mode_key hooks 120 (world (file_list 3) true) eq_refl)
    as (HonKey & Hpass & _).
  destruct (help_mode_key hooks KeyCtrlC (world (file_list 3) true) eq_refl)
    as (_ & _ & Hbreak).
  split; [exact HonKey|]. split; [apply Hpass; reflexivity|].
  apply Hbreak; reflexivity.
Defined.

Lemma NewAsyncList_result_witness :
  ∃ l : AsyncList string,
    NewAsyncList live_chan 3 = inr l ∧
    items l = [] ∧ scope l = [] ∧ matches l = ∅ ∧
    cursor l = 0 ∧ start l = 0 ∧ size l = 3 ∧ Inv l.
Proof.
  eexists. split; [reflexivity|].
  apply (proj2 (NewAsyncList_result (A:=string) live_chan 3)). reflexivity.
Defined.

Lemma Prev_Next_at_boundaries_witness :
  Prev (file_list 3) = file_list 3 ∧
  Next (SetCursor 2 (file_list 3)) = SetCursor 2 (file_list 3).
Proof.
  split.
  - apply (proj1 (Prev_Next_at_boundaries (file_list 3)
                    ltac:(evaluate) ltac:(evaluate))). reflexivity.
  - apply (proj2 (Prev_Next_at_boundaries (SetCursor 2 (file_list 3))
                    ltac:(evaluate) ltac:(evaluate))). evaluate.
Defined.

Lemma Prev_Next_step_witness :
  cursor (Next (file_list 3)) = cursor (file_list 3) + 1 ∧
  cursor (Prev (Next (file_list 3))) = cursor (file_list 3).
Proof.
  apply (proj1 (Prev_Next_step (file_list 3) ltac:(evaluate) ltac:(evaluate))).
  evaluate.
Defined.

Lemma PageUp_spec_witness :
  start (PageUp (PageDown ten)) = Z.max 0 (start (PageDown ten) - size (PageDown ten)) ∧
  cursor (PageUp (PageDown ten)) = start (PageUp (PageDown ten)) ∧
  scope (PageUp (PageDown ten)) = scope (PageDown ten) ∧
  items (PageUp (PageDown ten)) = items (PageDown ten).
Proof. apply (PageUp_spec (PageDown ten)); evaluate. Defined.

Lemma paging_progress_witness :
  start ten < start (PageDown ten) ≤ len (scope ten) - size ten.
Proof.
  apply (proj1 (paging_progress ten ltac:(evaluate) ltac:(evaluate))).
  reflexivity.
Defined.

Lemma PageDown_reaches_end_witness :
  CanPageDown (Nat.iter 10 PageDown ten) = false ∧
  len (scope ten) ≤ start (Nat.iter 10 PageDown ten) + size ten.
Proof. apply (PageDown_reaches_end ten 10); evaluate. Defined.

Lemma SetState_on_fresh_list_witness :
  let p := mkPrompt (SetCursor 2 (file_list 3)) true true false "Files" "a" false in
  let l' : AsyncList string :=
    mkAsyncList [Some "a.txt"; Some "b.txt"]%string
      [Some "a.txt"; Some "b.txt"]%string ∅ 0 3 0 "" in
  let p' := Snapshot.SetState (Snapshot.with_List l' (Snapshot.get p)) p in
  inputMode p' = inputMode p ∧ input p' = input p ∧
  itemsLabel p' = itemsLabel p ∧ helpMode p' = helpMode p ∧
  cursor (plist p') = Z.min (cursor (plist p)) (len (scope l') - 1) ∧
  start (plist p') = Z.min (start (plist p)) (cursor (plist p')) ∧
  scope (plist p') = scope l' ∧ items (plist p') = items l' ∧
  matches (plist p') = matches l' ∧
  Inv (plist p').
Proof.
  cbn zeta.
  apply (SetState_on_fresh_list
           (mkPrompt (SetCursor 2 (file_list 3)) true true false "Files" "a" false)
           (mkAsyncList [Some "a.txt"; Some "b.txt"]%string
              [Some "a.txt"; Some "b.txt"]%string ∅ 0 3 0 ""));
    evaluate.
Defined.

Lemma SetState_own_snapshot_witness :
  let p := mkPrompt (SetCursor 2 (file_list 3)) true false false "Files" "" false in
  Snapshot.SetState (Snapshot.get p) p = p.
Proof. cbn zeta. apply SetState_own_snapshot; evaluate. Defined.

Lemma Search_result_witness :
  ∃ l',
    Search Sprint "ab" (file_list 3) = Ret l' ∧
    scope l' = [Some "ab.go"%string] ∧
    (∀ v, v ∈ scope l' → v ∈ items (file_list 3)) ∧
    (∀ v, is_Some (matches l' !! v) ↔ v ∈ scope l') ∧
    cursor l' = 0 ∧ start l' = 0 ∧ find l' = "ab"%string.
Proof.
  destruct (Search Sprint "ab" (file_list 3)) as [l'| |] eqn:HSearch;
    [|vm_compute in HSearch; discriminate..].
  exists l'. split; [reflexivity|].
  destruct (Search_result Sprint "ab" (file_list 3) l' ltac:(evaluate) HSearch)
    as (Hscope & Hitems & Hdom & _ & _ & _ & Hc & Hs & Hf).
  split.
  - revert Hscope. vm_compute. intros Hscope.
    inversion Hscope as [|r v rs vs Hv Hrest]; subst.
    inversion Hrest; subst. by injection Hv as <-.
  - split; [exact Hitems|]. split; [exact Hdom|].
    split; [exact Hc|]. split; [exact Hs|]. exact Hf.
Defined.

Lemma Search_runs_witness :
  ∃ l', Search Sprint "ab" (file_list 3) = Ret l'.
Proof.
  apply (proj1 (Search_runs Sprint "ab" (file_list 3))). right.
  vm_compute. repeat constructor; discriminate.
Defined.

Lemma Search_idempotent_witness :
  ∃ l', Search Sprint "ab" (file_list 3) = Ret l' ∧ Search Sprint "ab" l' = Ret l'.
Proof.
  destruct (Search Sprint "ab" (file_list 3)) as [l'| |] eqn:HSearch;
    [|vm_compute in HSearch; discriminate..].
  exists l'. split; [reflexivity|].
  exact (Search_idempotent Sprint "ab" (file_list 3) l' HSearch).
Defined.

Lemma feed_snapshot_witness :
  scope (lst (feed files (spawn (mkAsyncList [] [] ∅ 0 2 0 ""))))
  = [] ++ take (Z.to_nat 2) files.
Proof.
  apply (feed_snapshot Sprint files (mkAsyncList [] [] ∅ 0 2 0 "")). cbn. lia.
Defined.

Lemma first_binding_wins_witness :
  let w := world (file_list 3) false in
  onKey hooks 120 w =
    Ret (Some "handler failed"%string,
         mkWorld (prompt w) (trace w ++ [BindingCalled 120 (Some "a.txt"%string)])).
Proof.
  cbn zeta.
  exact (first_binding_wins hooks 120 (world (file_list 3) false)
           files 0 (Some "a.txt"%string) []
           (mkKeyBinding 120 "x" failing "always fails") []
           eq_refl eq_refl ltac:(evaluate) ltac:(evaluate) eq_refl
           eq_refl ltac:(evaluate) eq_refl eq_refl
           (Forall_nil_2 _) eq_refl).
Defined.

Lemma unbound_key_is_ignored_witness :
  let w := world (file_list 3) false in
  onKey hooks 121 w = Ret (None, w) ∧
  loop_pass hooks (EvKey 121 None) w = finish_pass (update (set_hold true) w).
Proof.
  cbn zeta.
  destruct (unbound_key_is_ignored hooks 121 (world (file_list 3) false) files 0)
    as [HonKey Hpass]; try reflexivity; try (intros [=]).
  { repeat constructor. intros [=]. }
  split; [exact HonKey|]. apply Hpass; reflexivity.
Defined.

Lemma AddKeyBinding_shadowed_witness :
  let b := mkKeyBinding 120 "x" succeeding "never used" in
  let w := world (file_list 3) false in
  (AddKeyBinding b hooks).2 = None ∧
  onKey (AddKeyBinding b hooks).1 120 w = onKey hooks 120 w.
Proof.
  cbn zeta.
  destruct (AddKeyBinding_shadowed
              (mkKeyBinding 120 "x" succeeding "never used")
              hooks 120 (world (file_list 3) false)) as [Herr Hsame].
  split; [exact Herr|]. apply Hsame. left. apply Exists_cons_hd. reflexivity.
Defined.

Lemma loop_leaves_witness :
  let w := world (file_list 3) false in
  loop_from hooks [EvKey KeyCtrlC None; EvKey 120 None] w
  = Ret (Returned None (mkWorld (set_hold true (prompt w))
                          (trace w ++ [ScreenCleared]))).
Proof.
  cbn zeta.
  apply (proj1 (proj2 (loop_leaves hooks [EvKey 120 None]
                         (world (file_list 3) false)))).
  reflexivity.
Defined.

Lemma quiet_loop_returns_nil_witness :
  let evs := [EvKey 120 None; EvKey Enter None; EvWinch; EvQuit] in
  ∃ err w',
    mainloop quiet_hooks evs (world (file_list 3) false) = Ret (Returned err w') ∧
    err = None.
Proof.
  cbn zeta.
  destruct (mainloop quiet_hooks [EvKey 120 None; EvKey Enter None; EvWinch; EvQuit]
              (world (file_list 3) false)) as [[err w'|w']| |] eqn:Hrun;
    [|vm_compute in Hrun; discriminate..].
  exists err, w'. split; [reflexivity|].
  apply (quiet_loop_returns_nil quiet_hooks
           [EvKey 120 None; EvKey Enter None; EvWinch; EvQuit]
           (world (file_list 3) false) err w'); [| |exact Hrun].
  - split; [reflexivity|]. repeat constructor.
  - repeat constructor; intros ? ? [=].
Defined.

Lemma pass_ends_with_redraw_witness :
  ∃ w',
    loop_pass hooks (EvKey 121 None) (world (file_list 3) false)
    = Ret (Continue w') ∧
    hold (prompt w') = false ∧ ∃ f, last (trace w') = Some (Rendered f).
Proof.
  destruct (loop_pass hooks (EvKey 121 None) (world (file_list 3) false))
    as [[w'|e w'|e w']| |] eqn:Hpass; [|vm_compute in Hpass; discriminate..].
  exists w'. split; [reflexivity|].
  exact (proj1 (pass_ends_with_redraw hooks (world (file_list 3) false) w')
           121 Hpass).
Defined.

Lemma search_mode_toggle_witness :
  let w := world (file_list 3) false in
  let w1 := update (set_inputMode (negb (inputMode (prompt w)))) w in
  onKey hooks 47 w = Ret (None, w1) ∧
  plist (prompt w1) = plist (prompt w) ∧ input (prompt w1) = input (prompt w) ∧
  onKey hooks 47 w1 = Ret (None, w).
Proof.
  cbn zeta.
  apply (search_mode_toggle hooks (world (file_list 3) false)); reflexivity.
Defined.

Lemma help_round_trip_witness :
  let w := world (file_list 3) false in
  onKey hooks 63 w = Ret (None, update (set_helpMode true) w) ∧
  onKey hooks 120 (update (set_helpMode true) w) = Ret (None, w).
Proof.
  cbn zeta.
  apply (help_round_trip hooks 120 (world (file_list 3) false)); reflexivity.
Defined.

Lemma Selection_spec_witness :
  let p := mkPrompt (SetCursor 1 (file_list 3)) true false false "Files" "" false in
  ∃ v, scope (plist p) !! Z.to_nat (cursor (plist p)) = Some v ∧
       Selection p = Ret (inr v).
Proof.
  cbn zeta.
  apply (proj2 (Selection_spec Sprint
                  (mkPrompt (SetCursor 1 (file_list 3)) true false false
                     "Files" "" false)
                  ltac:(evaluate) ltac:(evaluate))).
  evaluate.
Defined.

Lemma confirm_dispatch_witness :
  let w := world (file_list 3) false in
  ∃ v, scope (plist (prompt w)) !! Z.to_nat (cursor (plist (prompt w))) = Some v ∧
       loop_pass hooks (EvKey Enter None) w =
         let '(p', err) := selectionHandler hooks v (set_hold true (prompt w)) in
         let w' := mkWorld p' (trace w ++ [SelectionCalled v]) in
         match err with
         | Some _ => Ret (Break err w')
         | None => finish_pass w'
         end.
Proof.
  cbn zeta.
  apply (confirm_dispatch Sprint hooks Enter (world (file_list 3) false));
    evaluate.
Defined.


Lemma itemText_highlights_witness :
  ∃ body,
    itemText Sprint (Some "ab.go"%string) [0; 1; 9] true =
      Ret (Cprint "> " [FgCyan] ++ body) ∧
    Ch <$> body = runes "ab.go" ∧
    ∀ i cell, body !! i = Some cell →
              Attr cell = replicate (hits i [0; 1; 9]) Underline.
Proof.
  apply (itemText_highlights Sprint (Some "ab.go"%string) [0; 1; 9] true).
  - discriminate.
  - repeat constructor; discriminate.
  - evaluate.
Defined.

Lemma itemText_edges_witness :
  itemText Sprint (Some "ab.go"%string) [] false =
    Ret (Cprint "  " [FgWhite] ++ Cprint "ab.go" []) ∧
  itemText Sprint (Some "ab.go"%string) [1; -1] false = Panic.
Proof.
  split.
  - apply (proj1 (itemText_edges Sprint (Some "ab.go"%string) [] false)).
    reflexivity.
  - apply (proj2 (itemText_edges Sprint (Some "ab.go"%string) [1; -1] false)).
    + apply Exists_cons_tl, Exists_cons_hd. reflexivity.
    + evaluate.
Defined.
